(** * Signature builder and case converter: a shallow embedding

    The development follows the two TypeScript modules of the repository:
    the e-mail signature generator ([normalizeUrl], [escapeHtml],
    [iconDataUri], [buildSignatureHTML], and the predicates [isEmail] and
    [isPhone] of its form) and the case converter ([computeOutput], the
    transforms it dispatches to, and [runSelfTests]).

    Conventions of the embedding.
    - A JavaScript string is the list of its code points, the way
      [Array.from] and the [u]-flag regular expressions of the source see
      it.  The operations of the source that work on UTF-16 code units
      ([trim], the replacements of [escapeHtml]) only look for characters of
      the Basic Multilingual Plane and copy everything else, so they read
      the same on code points.  The patterns of [isEmail] and [isPhone]
      have no [u] flag and count code units: they are run on the code
      units of the text.
    - A call that can raise (a method call on an array element that may be
      [undefined], [encodeURIComponent] on a lone surrogate) lives in the
      completion monad [M].
    - The Unicode tables of the host ([\p{L}], [\p{N}], the locale case
      mappings) are not part of the repository: they are the fields of the
      class [Unicode], and every function of the case converter takes such
      a table as a parameter. *)

From Stdlib Require Import Ascii String List NArith Bool Lia Arith.
Import ListNotations.

Open Scope N_scope.
Open Scope list_scope.

(* ===================================================================== *)
(** ** JavaScript strings *)
(* ===================================================================== *)

Module JS.

Definition jsstring := list N.

(** An ASCII literal of the source. *)
Definition lit (s : string) : jsstring :=
  map N_of_ascii (list_ascii_of_string s).

(** A literal of the source that holds double quotes: inside [tpl] a
    backquote stands for the double quote (the backquote delimits the
    template literals of the source and so never occurs inside one). *)
Definition tpl (s : string) : jsstring :=
  map (fun c => if c =? 96 then 34 else c) (lit s).

Fixpoint str_eqb (a b : jsstring) : bool :=
  match a, b with
  | [], [] => true
  | x :: a', y :: b' => (x =? y) && str_eqb a' b'
  | _, _ => false
  end.

(** Truthiness of a string: [!s] holds of the empty string only. *)
Definition is_empty (s : jsstring) : bool :=
  match s with [] => true | _ => false end.

(** [a || b] on strings. *)
Definition or_else (a b : jsstring) : jsstring :=
  if is_empty a then b else a.

(** [parts.join(sep)]. *)
Fixpoint join (sep : jsstring) (parts : list jsstring) : jsstring :=
  match parts with
  | [] => []
  | [p] => p
  | p :: rest => p ++ sep ++ join sep rest
  end.

(** [parts.filter(Boolean)] on an array of strings. *)
Definition filter_Boolean (parts : list jsstring) : list jsstring :=
  filter (fun p => negb (is_empty p)) parts.

(** WhiteSpace and LineTerminator of ECMAScript, the characters that
    [String.prototype.trim] strips. *)
Definition isWhiteSpace (c : N) : bool :=
  ((9 <=? c) && (c <=? 13)) || (c =? 32) || (c =? 160) || (c =? 5760)
  || ((8192 <=? c) && (c <=? 8202)) || (c =? 8232) || (c =? 8233)
  || (c =? 8239) || (c =? 8287) || (c =? 12288) || (c =? 65279).

Fixpoint trimStart (s : jsstring) : jsstring :=
  match s with
  | c :: rest => if isWhiteSpace c then trimStart rest else s
  | [] => []
  end.

Definition trimEnd (s : jsstring) : jsstring := rev (trimStart (rev s)).

Definition trim (s : jsstring) : jsstring := trimEnd (trimStart s).

Fixpoint takeWhile (p : N -> bool) (s : jsstring) : jsstring :=
  match s with
  | c :: rest => if p c then c :: takeWhile p rest else []
  | [] => []
  end.

Fixpoint dropWhile (p : N -> bool) (s : jsstring) : jsstring :=
  match s with
  | c :: rest => if p c then dropWhile p rest else s
  | [] => []
  end.

(** *** Completions *)

Inductive JsError := TypeError | URIError.

Inductive M (A : Type) : Type :=
| Normal (a : A)
| Throw (e : JsError).
Arguments Normal {A} a.
Arguments Throw {A} e.

Definition ret {A} (a : A) : M A := Normal a.

Definition bind {A B} (c : M A) (k : A -> M B) : M B :=
  match c with
  | Normal a => k a
  | Throw e => Throw e
  end.

(** [xs.map(f)] with a callback that may raise. *)
Fixpoint mapM {A B} (f : A -> M B) (xs : list A) : M (list B) :=
  match xs with
  | [] => ret []
  | x :: rest =>
      bind (f x) (fun y => bind (mapM f rest) (fun ys => ret (y :: ys)))
  end.

(** [a[i].method()]: reading past the end of an array gives [undefined],
    and a method call on [undefined] raises a TypeError. *)
Definition element {A} (a : list A) (i : nat) : M A :=
  match nth_error a i with
  | Some x => Normal x
  | None => Throw TypeError
  end.

(** [a[i] = v]; the source only assigns inside the array. *)
Fixpoint assign {A} (a : list A) (i : nat) (v : A) : list A :=
  match a, i with
  | [], _ => []
  | _ :: rest, O => v :: rest
  | x :: rest, S j => x :: assign rest j v
  end.

(** [Array.from(s)]: one string per code point. *)
Definition Array_from (s : jsstring) : list jsstring :=
  map (fun c => [c]) s.

(** *** Regular expressions

    A regular expression is modelled by its matcher: given the input from
    some position on, the length of the match that starts at this position,
    if there is one.  All the expressions of the source match at least one
    character when they match. *)

Definition regex := jsstring -> option nat.

Fixpoint starts_with (eq : N -> N -> bool) (p s : jsstring) : bool :=
  match p, s with
  | [], _ => true
  | x :: p', y :: s' => eq x y && starts_with eq p' s'
  | _ :: _, [] => false
  end.

(** A literal pattern, such as [/&/] or [/%0A/]. *)
Definition re_lit (p : jsstring) : regex :=
  fun s => if starts_with N.eqb p s then Some (length p) else None.

(** Canonicalize of the [i] flag without the [u] flag: a character is
    compared through its upper case, except that a character from 128 on
    is never identified with one below 128.  The patterns of the source
    are ASCII, so only the ASCII letters are folded. *)
Definition canonicalize (c : N) : N :=
  if (97 <=? c) && (c <=? 122) then c - 32 else c.

Definition re_lit_i (p : jsstring) : regex :=
  fun s =>
    if starts_with (fun x y => canonicalize x =? canonicalize y) p s
    then Some (length p) else None.

(** Alternation: the first alternative that matches. *)
Fixpoint re_alt (rs : list regex) : regex :=
  fun s =>
    match rs with
    | [] => None
    | r :: rest => match r s with Some n => Some n | None => re_alt rest s end
    end.

(** A character class, such as [/\p{L}/u] or [/[.!?]/]. *)
Definition re_class (p : N -> bool) : regex :=
  fun s => match s with c :: _ => if p c then Some 1%nat else None | [] => None end.

(** [/[p]+/]: the longest run of characters of the class, at least one. *)
Definition re_plus (p : N -> bool) : regex :=
  fun s => match length (takeWhile p s) with O => None | n => Some n end.

(** [/[p][q]*/]: a character of [p], then the longest run of characters
    of [q]. *)
Definition re_then_star (p q : N -> bool) : regex :=
  fun s =>
    match s with
    | c :: rest => if p c then Some (S (length (takeWhile q rest))) else None
    | [] => None
    end.

(** [/r/.test(s)]: is there a match somewhere in [s]. *)
Fixpoint test (r : regex) (s : jsstring) : bool :=
  match r s with
  | Some _ => true
  | None => match s with [] => false | _ :: rest => test r rest end
  end.

(** [/^r/.test(s)]. *)
Definition test_anchored (r : regex) (s : jsstring) : bool :=
  match r s with Some _ => true | None => false end.

(** [s.replace(/^r/, e)] with the empty string for [e]. *)
Definition strip_anchored (r : regex) (s : jsstring) : jsstring :=
  match r s with Some n => skipn n s | None => s end.

(** [s.replace(/r/g, rep)], with a replacement string free of [$].  The
    scan goes from left to right; after a match of length [n] it resumes
    [n] characters further: [skip] counts the characters of the current
    match still to pass over. *)
Fixpoint replace_from (r : regex) (rep : jsstring) (skip : nat) (s : jsstring)
  : jsstring :=
  match s with
  | [] => []
  | c :: rest =>
      match skip with
      | S k => replace_from r rep k rest
      | O =>
          match r s with
          | Some (S n) => rep ++ replace_from r rep n rest
          | _ => c :: replace_from r rep O rest
          end
      end
  end.

Definition replaceAll (r : regex) (rep : jsstring) (s : jsstring) : jsstring :=
  replace_from r rep O s.

(** [s.replace(/r/g, fn)] with a callback, which receives the matched
    text and may raise. *)
Fixpoint replaceWith_from (r : regex) (fn : jsstring -> M jsstring)
  (skip : nat) (s : jsstring) : M jsstring :=
  match s with
  | [] => ret []
  | c :: rest =>
      match skip with
      | S k => replaceWith_from r fn k rest
      | O =>
          match r s with
          | Some (S n) =>
              bind (fn (firstn (S n) s)) (fun w =>
              bind (replaceWith_from r fn n rest) (fun out => ret (w ++ out)))
          | _ =>
              bind (replaceWith_from r fn O rest) (fun out => ret (c :: out))
          end
      end
  end.

Definition replaceWith (r : regex) (fn : jsstring -> M jsstring)
  (s : jsstring) : M jsstring :=
  replaceWith_from r fn O s.

(** [s.split(/r/)]: [cur] is the piece being read. *)
Fixpoint split_from (r : regex) (skip : nat) (cur : jsstring) (s : jsstring)
  : list jsstring :=
  match s with
  | [] => [cur]
  | c :: rest =>
      match skip with
      | S k => split_from r k cur rest
      | O =>
          match r s with
          | Some (S n) => cur :: split_from r n [] rest
          | _ => split_from r O (cur ++ [c]) rest
          end
      end
  end.

Definition split (r : regex) (s : jsstring) : list jsstring :=
  split_from r O [] s.

End JS.

Export JS.

Declare Scope js_scope.
Notation "x <- c ;; k" := (bind c (fun x => k))
  (at level 61, c at next level, right associativity) : js_scope.
Open Scope js_scope.

(* ===================================================================== *)
(** ** The signature builder *)
(* ===================================================================== *)

Module Signature.

Record FormData := {
  firstName : jsstring;
  lastName : jsstring;
  jobTitle : jsstring;
  department : jsstring;
  companyName : jsstring;
  officePhone : jsstring;
  mobilePhone : jsstring;
  websiteUrl : jsstring;
  emailAddress : jsstring;
  address : jsstring;
  logoUrl : jsstring;
  logoDataUrl : jsstring;
  linkedin : jsstring;
  facebook : jsstring;
  twitter : jsstring;
  instagram : jsstring;
  whatsapp : jsstring;
  legal : jsstring
}.

Definition DEFAULTS : FormData :=
  {| firstName := []; lastName := []; jobTitle := []; department := [];
     companyName := []; officePhone := []; mobilePhone := [];
     websiteUrl := []; emailAddress := []; address := []; logoUrl := [];
     logoDataUrl := []; linkedin := []; facebook := []; twitter := [];
     instagram := []; whatsapp := []; legal := [] |}.

(** *** [encodeURIComponent] *)

Definition hexDigit (d : N) : N :=
  if d <? 10 then 48 + d else 55 + d.

Definition percent (byte : N) : jsstring :=
  [37; hexDigit (byte / 16); hexDigit (byte mod 16)].

Definition utf8 (c : N) : list N :=
  if c <? 128 then [c]
  else if c <? 2048 then [192 + c / 64; 128 + c mod 64]
  else if c <? 65536 then
    [224 + c / 4096; 128 + (c / 64) mod 64; 128 + c mod 64]
  else
    [240 + c / 262144; 128 + (c / 4096) mod 64; 128 + (c / 64) mod 64;
     128 + c mod 64].

(** The characters that [encodeURIComponent] leaves alone: letters,
    digits and [- _ . ! ~ * ' ( )]. *)
Definition uriUnreserved (c : N) : bool :=
  ((65 <=? c) && (c <=? 90)) || ((97 <=? c) && (c <=? 122))
  || ((48 <=? c) && (c <=? 57))
  || (c =? 45) || (c =? 95) || (c =? 46) || (c =? 33) || (c =? 126)
  || (c =? 42) || (c =? 39) || (c =? 40) || (c =? 41).

Definition isSurrogate (c : N) : bool := (55296 <=? c) && (c <=? 57343).

(** A surrogate that is a code point of its own is a lone one, on which
    [encodeURIComponent] raises a URIError. *)
Fixpoint encodeURIComponent (s : jsstring) : M jsstring :=
  match s with
  | [] => ret []
  | c :: rest =>
      if uriUnreserved c then
        out <- encodeURIComponent rest ;; ret (c :: out)
      else if isSurrogate c then Throw URIError
      else
        out <- encodeURIComponent rest ;;
        ret (flat_map percent (utf8 c) ++ out)
  end.

(** *** Icons *)

Definition iconDataUri (svg : jsstring) : M jsstring :=
  encoded0 <- encodeURIComponent svg ;;
  let encoded :=
    replaceAll (re_lit (lit "%20")) (lit " ")
      (replaceAll (re_lit (lit "%0A")) [] encoded0) in
  ret (lit "data:image/svg+xml;charset=utf-8," ++ encoded).

Record SocialIcons := {
  icon_linkedin : jsstring;
  icon_facebook : jsstring;
  icon_twitter : jsstring;
  icon_instagram : jsstring;
  icon_whatsapp : jsstring
}.

(** The default size 9 and the size 8.5 of the source are interpolated as
    the texts [9] and [8.5]. *)
Definition mk (stroke txt size : jsstring) : M jsstring :=
  iconDataUri (tpl "
<svg xmlns=`http://www.w3.org/2000/svg` width=`24` height=`24` viewBox=`0 0 24 24`>
  <rect x=`2.5` y=`2.5` width=`19` height=`19` rx=`6` fill=`none` stroke=`" ++ stroke ++ tpl "` stroke-width=`1.5`/>
  <text x=`12` y=`14.1` text-anchor=`middle` font-family=`Arial, Helvetica, sans-serif` font-size=`" ++ size ++ tpl "` font-weight=`700` fill=`" ++ stroke ++ tpl "`>" ++ txt ++ tpl "</text>
</svg>").

Definition makeSocialIcons (stroke : jsstring) : M SocialIcons :=
  i_linkedin <- mk stroke (lit "in") (lit "9") ;;
  i_facebook <- mk stroke (lit "f") (lit "9") ;;
  i_twitter <- mk stroke (lit "X") (lit "9") ;;
  i_instagram <- mk stroke (lit "ig") (lit "9") ;;
  i_whatsapp <- mk stroke (lit "wa") (lit "8.5") ;;
  ret {| icon_linkedin := i_linkedin; icon_facebook := i_facebook;
         icon_twitter := i_twitter; icon_instagram := i_instagram;
         icon_whatsapp := i_whatsapp |}.

Definition SOCIAL_LIGHT : M SocialIcons := makeSocialIcons (lit "#6b7280").
Definition SOCIAL_DARK : M SocialIcons := makeSocialIcons (lit "#cbd5e1").

(** *** [normalizeUrl] and [escapeHtml] *)

(** [/^(mailto:|tel:|https?:\/\/)/i]; the optional [s] is greedy. *)
Definition re_https : regex :=
  re_alt [re_lit_i (lit "https://"); re_lit_i (lit "http://")].

Definition re_scheme : regex :=
  re_alt [re_lit_i (lit "mailto:"); re_lit_i (lit "tel:"); re_https].

Definition normalizeUrl (raw : jsstring) : jsstring :=
  let v := trim (or_else raw []) in
  if is_empty v then []
  else if test_anchored re_scheme v then v
  else lit "https://" ++ v.

Definition escapeHtml (str : jsstring) : jsstring :=
  replaceAll (re_lit (lit "'")) (lit "&#039;")
    (replaceAll (re_lit (tpl "`")) (lit "&quot;")
      (replaceAll (re_lit (lit ">")) (lit "&gt;")
        (replaceAll (re_lit (lit "<")) (lit "&lt;")
          (replaceAll (re_lit (lit "&")) (lit "&amp;")
            (or_else str []))))).

(** *** [buildSignatureHTML] *)

Inductive ThemeName := light | dark.

Record BuildOpts := { theme : option ThemeName }.

Inductive SocialKey :=
  k_linkedin | k_facebook | k_twitter | k_instagram | k_whatsapp.

Record Social := { key : SocialKey; label : jsstring; url : jsstring }.

(** [SOCIAL[s.key]]. *)
Definition icon_of (SOCIAL : SocialIcons) (k : SocialKey) : jsstring :=
  match k with
  | k_linkedin => icon_linkedin SOCIAL
  | k_facebook => icon_facebook SOCIAL
  | k_twitter => icon_twitter SOCIAL
  | k_instagram => icon_instagram SOCIAL
  | k_whatsapp => icon_whatsapp SOCIAL
  end.

(** The constants of the body of [buildSignatureHTML] come first, each
    with the constants of the body that it uses as its arguments. *)

Definition font : jsstring := lit "Arial, Helvetica, sans-serif".

Definition black (theme : ThemeName) : jsstring :=
  match theme with dark => lit "#f8fafc" | light => lit "#111827" end.
Definition gray600 (theme : ThemeName) : jsstring :=
  match theme with dark => lit "#e5e7eb" | light => lit "#4b5563" end.
Definition gray500 (theme : ThemeName) : jsstring :=
  match theme with dark => lit "#cbd5e1" | light => lit "#6b7280" end.
Definition gray400 (theme : ThemeName) : jsstring :=
  match theme with dark => lit "#94a3b8" | light => lit "#9ca3af" end.

Definition baseTd : jsstring :=
  lit "font-family:" ++ font ++ lit "; text-align:left; mso-line-height-rule:exactly; -webkit-text-size-adjust:100%; -ms-text-size-adjust:100%;".

Definition row (theme : ThemeName) (html : jsstring) : jsstring :=
  if is_empty html then []
  else tpl "
<tr>
  <td style=`padding:2px 0; " ++ baseTd ++ tpl " font-size:14px; line-height:18px; color:" ++ gray600 theme ++ tpl ";`>" ++ html ++ tpl "</td>
</tr>".

Definition officeHtml (theme : ThemeName) (officePhone : jsstring) : jsstring :=
  if is_empty officePhone then []
  else tpl "<span style=`color:" ++ gray500 theme ++ tpl ";`>Office:</span> <a href=`tel:" ++ escapeHtml officePhone ++ tpl "` style=`color:" ++ gray600 theme ++ tpl "; text-decoration:none;`>" ++ escapeHtml officePhone ++ tpl "</a>".

Definition mobileHtml (theme : ThemeName) (mobilePhone : jsstring) : jsstring :=
  if is_empty mobilePhone then []
  else tpl "<span style=`color:" ++ gray500 theme ++ tpl ";`>Mobile:</span> <a href=`tel:" ++ escapeHtml mobilePhone ++ tpl "` style=`color:" ++ gray600 theme ++ tpl "; text-decoration:none;`>" ++ escapeHtml mobilePhone ++ tpl "</a>".

Definition emailHtml (theme : ThemeName) (email : jsstring) : jsstring :=
  if is_empty email then []
  else tpl "<a href=`mailto:" ++ escapeHtml email ++ tpl "` style=`color:" ++ gray600 theme ++ tpl "; text-decoration:none;`>" ++ escapeHtml email ++ tpl "</a>".

Definition webHtml (theme : ThemeName) (website : jsstring) : jsstring :=
  if is_empty website then []
  else tpl "<a href=`" ++ escapeHtml website ++ tpl "` style=`color:" ++ gray600 theme ++ tpl "; text-decoration:none;`>" ++ escapeHtml (strip_anchored re_https website) ++ tpl "</a>".

Definition addressHtml (theme : ThemeName) (address : jsstring) : jsstring :=
  if is_empty address then []
  else tpl "<span style=`color:" ++ gray600 theme ++ tpl ";`>" ++ escapeHtml address ++ tpl "</span>".

(** The callback of [socials.map]. *)
Definition socialCell (SOCIAL : SocialIcons) (s : Social) : jsstring :=
  tpl "<td style=`padding-right:8px;`><a href=`" ++ escapeHtml (url s) ++ tpl "` style=`text-decoration:none;` target=`_blank` rel=`noopener noreferrer`><img src=`" ++ icon_of SOCIAL (key s) ++ tpl "` width=`24` height=`24` style=`display:block; border:0; outline:none; text-decoration:none;` alt=`" ++ escapeHtml (label s) ++ tpl "` /></a></td>".

Definition socialsRow (SOCIAL : SocialIcons) (socials : list Social) : jsstring :=
  if (0 <? length socials)%nat then
    tpl "
<tr>
  <td style=`padding-top:10px; " ++ baseTd ++ tpl "`>
    <table role=`presentation` cellpadding=`0` cellspacing=`0` border=`0` style=`border-collapse:collapse; " ++ baseTd ++ tpl "`>
      <tr>
        " ++ join [] (map (socialCell SOCIAL) socials) ++ tpl "
      </tr>
    </table>
  </td>
</tr>"
  else [].

(** The three blocks of the header; the source writes each of them out
    in the two branches of [headerBlock]. *)
Definition nameBlock (theme : ThemeName) (fullName : jsstring) : jsstring :=
  if is_empty fullName then []
  else tpl "<div style=`" ++ baseTd ++ tpl " font-size:18px; line-height:22px; font-weight:700; color:" ++ black theme ++ tpl ";`>" ++ escapeHtml fullName ++ tpl "</div>".

Definition jobBlock (theme : ThemeName) (jobLine : jsstring) : jsstring :=
  if is_empty jobLine then []
  else tpl "<div style=`" ++ baseTd ++ tpl " padding-top:2px; font-size:14px; line-height:18px; color:" ++ gray600 theme ++ tpl ";`>" ++ escapeHtml jobLine ++ tpl "</div>".

Definition companyBlock (theme : ThemeName) (company : jsstring) : jsstring :=
  if is_empty company then []
  else tpl "<div style=`" ++ baseTd ++ tpl " padding-top:2px; font-size:14px; line-height:18px; color:" ++ gray400 theme ++ tpl ";`>" ++ escapeHtml company ++ tpl "</div>".

Definition headerBlock (theme : ThemeName) (logoSrc fullName jobLine company : jsstring)
  : jsstring :=
  if negb (is_empty logoSrc) then
    tpl "
<table role=`presentation` cellpadding=`0` cellspacing=`0` border=`0` style=`border-collapse:collapse; " ++ baseTd ++ tpl "`>
  <tr>
    <td style=`vertical-align:top; padding-right:12px;`>
      <img src=`" ++ escapeHtml logoSrc ++ tpl "` width=`48` height=`48` style=`display:block; border:0; outline:none; text-decoration:none; border-radius:10px;` alt=`` />
    </td>
    <td style=`vertical-align:top; " ++ baseTd ++ tpl "`>
      " ++ nameBlock theme fullName ++ tpl "
      " ++ jobBlock theme jobLine ++ tpl "
      " ++ companyBlock theme company ++ tpl "
    </td>
  </tr>
</table>"
  else
    tpl "
" ++ nameBlock theme fullName ++ tpl "
" ++ jobBlock theme jobLine ++ tpl "
" ++ companyBlock theme company.

(** The last block of the template. *)
Definition legalBlock (theme : ThemeName) (legal : jsstring) : jsstring :=
  if is_empty legal then []
  else tpl "
<tr>
  <td style=`padding-top:12px; " ++ baseTd ++ tpl " font-size:11px; line-height:15px; color:" ++ gray400 theme ++ tpl "; max-width:420px;`>" ++ replaceAll (re_lit [10]) (lit "<br/>") (escapeHtml legal) ++ tpl "</td>
</tr>".

(** The module constants [SOCIAL_LIGHT] and [SOCIAL_DARK] are computed when
    the module loads; the model computes the one it needs at the start of
    the call, so that a failure at load time shows as a failure of the
    call. *)
Definition buildSignatureHTML (data : FormData) (opts : BuildOpts) : M jsstring :=
  let theme := match theme opts with Some dark => dark | _ => light end in
  SOCIAL <- match theme with dark => SOCIAL_DARK | light => SOCIAL_LIGHT end ;;

  let fullName :=
    trim (join (lit " ") (filter_Boolean [firstName data; lastName data])) in
  let jobLine :=
    trim (join [32; 8226; 32] (filter_Boolean [jobTitle data; department data])) in

  let company := trim (or_else (companyName data) []) in
  let officePhone := trim (or_else (officePhone data) []) in
  let mobilePhone := trim (or_else (mobilePhone data) []) in
  let email := trim (or_else (emailAddress data) []) in
  let websiteUrl := trim (or_else (websiteUrl data) []) in
  let address := trim (or_else (address data) []) in

  let logoSrc :=
    or_else (trim (or_else (logoDataUrl data) []))
      (if is_empty (trim (or_else (logoUrl data) [])) then []
       else normalizeUrl (logoUrl data)) in
  let website := if is_empty websiteUrl then [] else normalizeUrl websiteUrl in

  let socials :=
    filter (fun s => negb (is_empty (url s)))
      [ {| key := k_linkedin; label := lit "LinkedIn"; url := normalizeUrl (linkedin data) |};
        {| key := k_facebook; label := lit "Facebook"; url := normalizeUrl (facebook data) |};
        {| key := k_twitter; label := lit "X"; url := normalizeUrl (twitter data) |};
        {| key := k_instagram; label := lit "Instagram"; url := normalizeUrl (instagram data) |};
        {| key := k_whatsapp; label := lit "WhatsApp"; url := normalizeUrl (whatsapp data) |} ] in

  let legal := trim (or_else (legal data) []) in

  let html :=
    trim (tpl "
<table role=`presentation` cellpadding=`0` cellspacing=`0` border=`0` style=`border-collapse:collapse; " ++ baseTd ++ tpl "`>
  <tr>
    <td style=`padding:0; " ++ baseTd ++ tpl "`>
      <table role=`presentation` cellpadding=`0` cellspacing=`0` border=`0` style=`border-collapse:collapse; " ++ baseTd ++ tpl "`>
        <tr>
          <td style=`padding:0; " ++ baseTd ++ tpl "`>" ++ headerBlock theme logoSrc fullName jobLine company ++ tpl "</td>
        </tr>

        <tr>
          <td style=`padding-top:10px; " ++ baseTd ++ tpl "`>
            <table role=`presentation` cellpadding=`0` cellspacing=`0` border=`0` style=`border-collapse:collapse; " ++ baseTd ++ tpl "`>
              " ++ row theme (officeHtml theme officePhone) ++ tpl "
              " ++ row theme (mobileHtml theme mobilePhone) ++ tpl "
              " ++ row theme (emailHtml theme email) ++ tpl "
              " ++ row theme (webHtml theme website) ++ tpl "
              " ++ row theme (addressHtml theme address) ++ tpl "
            </table>
          </td>
        </tr>

        " ++ socialsRow SOCIAL socials ++ tpl "

        " ++ legalBlock theme legal ++ tpl "
      </table>
    </td>
  </tr>
</table>
") in

  ret html.

End Signature.

(* ===================================================================== *)
(** ** The case converter *)
(* ===================================================================== *)

(** The Unicode tables of the host: the general categories Letter and
    Number, and the case mappings of the host's locale, which work on
    whole strings (a mapping may change the length, and may look at the
    neighbours of a character). *)
Class Unicode := {
  isL : N -> bool;
  isN : N -> bool;
  toLocaleUpperCase : jsstring -> jsstring;
  toLocaleLowerCase : jsstring -> jsstring
}.

Module CaseEngine.

Section Transforms.

Context {U : Unicode}.

(** [[\p{L}\p{N}]] *)
Definition alnum (c : N) : bool := isL c || isN c.

(** [/[^\p{L}\p{N}]+/u] *)
Definition re_separator : regex := re_plus (fun c => negb (alnum c)).

(** [/\p{L}[\p{L}\p{N}]*/gu] *)
Definition re_word : regex := re_then_star isL alnum.

(** [/\p{L}/u] *)
Definition re_letter : regex := re_class isL.

(** [/[.!?]/] *)
Definition re_stop : regex :=
  re_class (fun c => (c =? 46) || (c =? 33) || (c =? 63)).

Definition splitWords (text : jsstring) : list jsstring :=
  filter_Boolean (split re_separator (trim text)).

Definition preserveWordTransform (input : jsstring) (fn : jsstring -> M jsstring)
  : M jsstring :=
  replaceWith re_word (fun w => fn w) input.

(** The callback that [toTitleCase], [toCamelCase] and [toPascalCase] each
    write out: lower the word, then raise its first code point. *)
Definition capitalize (w : jsstring) : M jsstring :=
  let chars := Array_from (toLocaleLowerCase w) in
  if (length chars =? 0)%nat then ret []
  else
    c0 <- element chars 0 ;;
    let chars := assign chars 0 (toLocaleUpperCase c0) in
    ret (join [] chars).

Definition toTitleCase (text : jsstring) : M jsstring :=
  replaceWith re_word capitalize text.

Definition toSentenceCase (text : jsstring) : jsstring :=
  let lower := toLocaleLowerCase text in
  fst (fold_left
         (fun (st : jsstring * bool) (ch : jsstring) =>
            let (out, capNext) := st in
            if capNext && test re_letter ch then
              (out ++ toLocaleUpperCase ch, false)
            else
              (out ++ ch,
               if test re_stop ch || str_eqb ch [10] then true else capNext))
         (Array_from lower) ([], true)).

Definition toggleCase (text : jsstring) : jsstring :=
  fold_left
    (fun (out : jsstring) (ch : jsstring) =>
       if negb (test re_letter ch) then out ++ ch
       else out ++ (if str_eqb ch (toLocaleUpperCase ch)
                    then toLocaleLowerCase ch else toLocaleUpperCase ch))
    (Array_from text) [].

Definition alternatingCase (text : jsstring) : jsstring :=
  fst (fold_left
         (fun (st : jsstring * bool) (ch : jsstring) =>
            let (out, flip) := st in
            if negb (test re_letter ch) then (out ++ ch, flip)
            else
              (out ++ (if flip then toLocaleUpperCase ch else toLocaleLowerCase ch),
               negb flip))
         (Array_from text) ([], false)).

Definition toCamelCase (text : jsstring) : M jsstring :=
  let words := splitWords text in
  if (length words =? 0)%nat then ret []
  else
    w0 <- element words 0 ;;
    let first := toLocaleLowerCase w0 in
    rest <- mapM capitalize (skipn 1 words) ;;
    ret (first ++ join [] rest).

Definition toPascalCase (text : jsstring) : M jsstring :=
  ws <- mapM capitalize (splitWords text) ;;
  ret (join [] ws).

Definition toDelimited (text d : jsstring) : jsstring :=
  join d (map (fun w => toLocaleLowerCase w) (splitWords text)).

Definition toSpaceCase (text : jsstring) : jsstring :=
  join (lit " ") (splitWords text).

(** [active] has the type [ActionKey] in the source, which TypeScript
    erases: at run time it is a string, compared with [===] against the
    twelve keys in turn.  On a string the default of [text ?? ...] is not
    taken. *)
Definition computeOutput (text : jsstring) (preserve : bool) (active : jsstring)
  : M jsstring :=
  let input := text in
  if str_eqb active (lit "upper") then
    if preserve then preserveWordTransform input (fun w => ret (toLocaleUpperCase w))
    else ret (toLocaleUpperCase (trim input))
  else if str_eqb active (lit "lower") then
    if preserve then preserveWordTransform input (fun w => ret (toLocaleLowerCase w))
    else ret (toLocaleLowerCase (trim input))
  else if str_eqb active (lit "title") then
    if preserve then toTitleCase input else toTitleCase (trim input)
  else if str_eqb active (lit "sentence") then
    ret (if preserve then toSentenceCase input else toSentenceCase (trim input))
  else if str_eqb active (lit "toggle") then
    ret (if preserve then toggleCase input else toggleCase (trim input))
  else if str_eqb active (lit "alternating") then
    ret (if preserve then alternatingCase input else alternatingCase (trim input))
  else if str_eqb active (lit "camel") then toCamelCase input
  else if str_eqb active (lit "pascal") then toPascalCase input
  else if str_eqb active (lit "snake") then ret (toDelimited input (lit "_"))
  else if str_eqb active (lit "kebab") then ret (toDelimited input (lit "-"))
  else if str_eqb active (lit "dot") then ret (toDelimited input (lit "."))
  else if str_eqb active (lit "space") then ret (toSpaceCase input)
  else ret input.

End Transforms.

End CaseEngine.

(** The tables of Unicode cut down to Basic Latin, with the case mappings
    of a locale without special rules: outside of Basic Latin nothing is a
    letter or a digit and the case mappings change nothing. *)
Module BasicLatin.

Definition upper1 (c : N) : N := if (97 <=? c) && (c <=? 122) then c - 32 else c.
Definition lower1 (c : N) : N := if (65 <=? c) && (c <=? 90) then c + 32 else c.

Definition tables : Unicode := {|
  isL := fun c => ((65 <=? c) && (c <=? 90)) || ((97 <=? c) && (c <=? 122));
  isN := fun c => (48 <=? c) && (c <=? 57);
  toLocaleUpperCase := map upper1;
  toLocaleLowerCase := map lower1
|}.

End BasicLatin.

(* ===================================================================== *)
(** ** The validation predicates of the signature form *)
(* ===================================================================== *)

Module Validation.

(** The regular expressions of [isEmail] and [isPhone] have no [u] flag:
    they read the string by UTF-16 code units, a code point from 65536 on
    being two of them. *)
Definition utf16 (c : N) : list N :=
  if c <? 65536 then [c]
  else [55296 + (c - 65536) / 1024; 56320 + (c - 65536) mod 1024].

Definition code_units (s : jsstring) : list N := flat_map utf16 s.

(** Both expressions are anchored at the two ends, so that [test] asks
    whether the whole string is in the language of the pattern.  The
    patterns are kept as terms, and membership is decided with
    derivatives. *)
Inductive pattern :=
| Fail
| Empty
| Class (p : N -> bool)
| Then (a b : pattern)
| Or (a b : pattern)
| Many (a : pattern).

Fixpoint nullable (r : pattern) : bool :=
  match r with
  | Fail => false
  | Empty => true
  | Class _ => false
  | Then a b => nullable a && nullable b
  | Or a b => nullable a || nullable b
  | Many _ => true
  end.

Fixpoint derivative (c : N) (r : pattern) : pattern :=
  match r with
  | Fail => Fail
  | Empty => Fail
  | Class p => if p c then Empty else Fail
  | Then a b =>
      if nullable a then Or (Then (derivative c a) b) (derivative c b)
      else Then (derivative c a) b
  | Or a b => Or (derivative c a) (derivative c b)
  | Many a => Then (derivative c a) (Many a)
  end.

(** [/^r$/.test(s)] on the code units [s]. *)
Fixpoint accepts (r : pattern) (s : list N) : bool :=
  match s with
  | [] => nullable r
  | c :: rest => accepts (derivative c r) rest
  end.

(** [r{n,}]; [r+] is [r{1,}]. *)
Fixpoint at_least (n : nat) (r : pattern) : pattern :=
  match n with
  | O => Many r
  | S k => Then r (at_least k r)
  end.

(** [[^\s@]]; the [i] flag of the expression changes nothing, no
    character having a white space character or [@] for its other
    case. *)
Definition address_char (c : N) : bool := negb (isWhiteSpace c || (c =? 64)).

(** [/^[^\s@]+@[^\s@]+\.[^\s@]{2,}$/i] *)
Definition email_pattern : pattern :=
  Then (at_least 1 (Class address_char))
    (Then (Class (N.eqb 64))
       (Then (at_least 1 (Class address_char))
          (Then (Class (N.eqb 46))
             (at_least 2 (Class address_char))))).

(** [[+()\-\s\d]] *)
Definition phone_char (c : N) : bool :=
  (c =? 43) || (c =? 40) || (c =? 41) || (c =? 45) || isWhiteSpace c
  || ((48 <=? c) && (c <=? 57)).

(** [/^[+()\-\s\d]{6,}$/] *)
Definition phone_pattern : pattern := at_least 6 (Class phone_char).

Definition isEmail (v : jsstring) : bool :=
  let s := trim (or_else v []) in
  if is_empty s then false
  else accepts email_pattern (code_units s).

Definition isPhone (v : jsstring) : bool :=
  let s := trim (or_else v []) in
  if is_empty s then true
  else accepts phone_pattern (code_units s).

End Validation.

(* ===================================================================== *)
(** ** The self-tests of the case converter *)
(* ===================================================================== *)

Module SelfTests.

Import CaseEngine.

Section Tests.

Context {U : Unicode}.

(** [assert(name, cond)] hands [cond] to [console.assert], which writes
    its message to the console when [cond] is false; the model returns
    what is written.  The condition compares an output of [computeOutput]
    with a text. *)
Definition assert (name : jsstring) (output : M jsstring) (expected : jsstring)
  : M (list jsstring) :=
  out <- output ;;
  ret (if str_eqb out expected then [] else [lit "Test failed: " ++ name]).

Definition runSelfTests : M (list jsstring) :=
  l1 <- assert (lit "upper preserves punctuation")
          (computeOutput (lit "Hi, Bob!") true (lit "upper")) (lit "HI, BOB!") ;;
  l2 <- assert (lit "lower trims when preserve=false")
          (computeOutput (lit "  Hi  ") false (lit "lower")) (lit "hi") ;;
  l3 <- assert (lit "title basic")
          (computeOutput (lit "hello world") true (lit "title")) (lit "Hello World") ;;
  l4 <- assert (lit "sentence casing respects punctuation")
          (computeOutput (lit "HELLO. HOW ARE YOU?" ++ [10] ++ lit "OK!") true
             (lit "sentence"))
          (lit "Hello. How are you?" ++ [10] ++ lit "Ok!") ;;
  l5 <- assert (lit "toggle")
          (computeOutput (lit "AbC") true (lit "toggle")) (lit "aBc") ;;
  l6 <- assert (lit "alternating ignores spaces")
          (computeOutput (lit "ab cd") true (lit "alternating")) (lit "aB cD") ;;
  l7 <- assert (lit "camel")
          (computeOutput (lit "hello world") true (lit "camel")) (lit "helloWorld") ;;
  l8 <- assert (lit "pascal")
          (computeOutput (lit "hello world") true (lit "pascal")) (lit "HelloWorld") ;;
  l9 <- assert (lit "snake")
          (computeOutput (lit "Hello, world!") true (lit "snake")) (lit "hello_world") ;;
  l10 <- assert (lit "kebab")
          (computeOutput (lit "Hello, world!") true (lit "kebab")) (lit "hello-world") ;;
  l11 <- assert (lit "dot")
          (computeOutput (lit "Hello, world!") true (lit "dot")) (lit "hello.world") ;;
  l12 <- assert (lit "space")
          (computeOutput (lit "Hello, world!") true (lit "space")) (lit "Hello world") ;;
  ret (l1 ++ l2 ++ l3 ++ l4 ++ l5 ++ l6 ++ l7 ++ l8 ++ l9 ++ l10 ++ l11 ++ l12).

End Tests.

End SelfTests.

(* ===================================================================== *)
(** ** Vocabulary of the properties *)
(* ===================================================================== *)

Import Signature CaseEngine Validation SelfTests.

(** *** Trimming *)

Definition no_ws_head (v : jsstring) : Prop :=
  match v with c :: _ => isWhiteSpace c = false | [] => True end.

(** The last character of [l] is not white space. *)
Definition ends_well (l : jsstring) : Prop := isWhiteSpace (last l 32) = false.

(** [v] is [raw] without the white space at its two ends. *)
Definition is_trim_of (raw v : jsstring) : Prop :=
  exists pre post,
    raw = pre ++ v ++ post
    /\ Forall (fun c => isWhiteSpace c = true) pre
    /\ Forall (fun c => isWhiteSpace c = true) post
    /\ no_ws_head v /\ no_ws_head (rev v).

(** *** The contract of [normalizeUrl] *)

Definition fold_case (c : N) : N :=
  if (65 <=? c) && (c <=? 90) then c + 32 else c.

Definition same_ignoring_case (a b : jsstring) : Prop :=
  map fold_case a = map fold_case b.

Definition schemes : list jsstring :=
  [lit "mailto:"; lit "tel:"; lit "http://"; lit "https://"].

(** [v] starts, up to the case of its letters, with one of the schemes. *)
Definition has_scheme (v : jsstring) : Prop :=
  exists p pre rest,
    In p schemes /\ v = pre ++ rest /\ same_ignoring_case pre p.

Inductive url_contract (raw : jsstring) : jsstring -> Prop :=
| url_absent :
    is_trim_of raw [] -> url_contract raw []
| url_kept v :
    is_trim_of raw v -> v <> [] -> has_scheme v -> url_contract raw v
| url_prefixed v :
    is_trim_of raw v -> v <> [] -> ~ has_scheme v ->
    url_contract raw (lit "https://" ++ v).

(** *** The keys of the case converter *)

Definition action_keys : list jsstring :=
  [lit "upper"; lit "lower"; lit "title"; lit "sentence"; lit "toggle";
   lit "alternating"; lit "camel"; lit "pascal"; lit "snake"; lit "kebab";
   lit "dot"; lit "space"].

(** *** The scenario of the specification *)

Definition scenario : FormData :=
  {| firstName := lit "Alex"; lastName := lit "Johnson"; jobTitle := [];
     department := []; companyName := []; officePhone := [];
     mobilePhone := []; websiteUrl := []; emailAddress := lit "a@b.com";
     address := []; logoUrl := []; logoDataUrl := []; linkedin := [];
     facebook := []; twitter := []; instagram := []; whatsapp := [];
     legal := [] |}.

(** The number of places of [s] at which [p] occurs. *)
Fixpoint occurrences (p s : jsstring) : nat :=
  match s with
  | [] => O
  | _ :: rest =>
      ((if starts_with N.eqb p s then 1 else 0) + occurrences p rest)%nat
  end.

(** *** Words and tokens *)

Section Tokens.

Context {U : Unicode}.

Definition not_alnum_head (s : jsstring) : Prop :=
  match s with c :: _ => alnum c = false | [] => True end.

(** The words that the case transforms rewrite in place.  A text reads
    from left to right as a sequence of segments: a word is a letter with
    the longest run of letters and digits behind it, so that what follows a
    word is the end of the text or a character that is neither; a
    character that is not a letter and that no word has taken is a gap. *)
Inductive segment := Gap (c : N) | Word (w : jsstring).

Inductive words_in : jsstring -> list segment -> Prop :=
| wi_end : words_in [] []
| wi_gap c rest segs :
    isL c = false ->
    words_in rest segs ->
    words_in (c :: rest) (Gap c :: segs)
| wi_word c t rest segs :
    isL c = true ->
    Forall (fun x => alnum x = true) t ->
    not_alnum_head rest ->
    words_in rest segs ->
    words_in (c :: t ++ rest) (Word (c :: t) :: segs).

(** The text in which each word is replaced by its image, the gaps
    staying where they are. *)
Definition rewrite_words (fn : jsstring -> jsstring) (segs : list segment)
  : jsstring :=
  flat_map (fun sg => match sg with Gap c => [c] | Word w => fn w end) segs.

(** The tokens that the delimiter transforms join: the text reads as
    runs of characters that are neither letters nor digits, with between
    them the tokens, which are the longest runs of letters and digits. *)
Inductive tokens_of : jsstring -> list jsstring -> Prop :=
| tk_none g :
    Forall (fun x => alnum x = false) g ->
    tokens_of g []
| tk_token g c t rest ws :
    Forall (fun x => alnum x = false) g ->
    Forall (fun x => alnum x = true) (c :: t) ->
    not_alnum_head rest ->
    tokens_of rest ws ->
    tokens_of (g ++ (c :: t) ++ rest) ((c :: t) :: ws).

(** No white space character of [trim] is a letter or a digit; this holds
    of the tables of Unicode. *)
Definition white_space_separates : Prop :=
  forall c, isWhiteSpace c = true -> alnum c = false.

(** The callback [capitalize] as a function. *)
Definition capitalized (w : jsstring) : jsstring :=
  match toLocaleLowerCase w with
  | [] => []
  | c :: low => toLocaleUpperCase [c] ++ low
  end.

(** One pass over a text that maps the characters inside the words
    through [f] and copies the others; [inword] tells whether the
    character before was inside a word. *)
Fixpoint scan (f : N -> jsstring) (inword : bool) (s : jsstring) : jsstring :=
  match s with
  | [] => []
  | c :: rest =>
      if (if inword then alnum c else isL c)
      then f c ++ scan f true rest
      else c :: scan f false rest
  end.

End Tokens.

(** *** Escaping *)

(** What [escapeHtml] makes of one character. *)
Definition entity (c : N) : jsstring :=
  if c =? 38 then lit "&amp;"
  else if c =? 60 then lit "&lt;"
  else if c =? 62 then lit "&gt;"
  else if c =? 34 then lit "&quot;"
  else if c =? 39 then lit "&#039;"
  else [c].

(** What the block of legal text makes of one character: after the
    escaping, a line feed becomes a line break. *)
Definition entity_br (c : N) : jsstring :=
  if c =? 10 then lit "<br/>" else entity c.

(** The characters that open or close markup and attribute values. *)
Definition delimiter (c : N) : bool :=
  (c =? 60) || (c =? 62) || (c =? 34) || (c =? 39).

(** *** The values that the builder writes into the markup *)

Inductive slot :=
| s_fullName | s_jobLine | s_company | s_officePhone | s_mobilePhone
| s_email | s_website | s_websiteText | s_address | s_logoSrc
| s_url (k : SocialKey) | s_legal.

Definition social_field (data : FormData) (k : SocialKey) : jsstring :=
  match k with
  | k_linkedin => linkedin data
  | k_facebook => facebook data
  | k_twitter => twitter data
  | k_instagram => instagram data
  | k_whatsapp => whatsapp data
  end.

Definition social_label (k : SocialKey) : jsstring :=
  match k with
  | k_linkedin => lit "LinkedIn"
  | k_facebook => lit "Facebook"
  | k_twitter => lit "X"
  | k_instagram => lit "Instagram"
  | k_whatsapp => lit "WhatsApp"
  end.

Definition social_keys : list SocialKey :=
  [k_linkedin; k_facebook; k_twitter; k_instagram; k_whatsapp].

Definition website_value (data : FormData) : jsstring :=
  if is_empty (trim (or_else (websiteUrl data) [])) then []
  else normalizeUrl (trim (or_else (websiteUrl data) [])).

(** The value of each slot, from the fields of the record. *)
Definition slot_value (data : FormData) (s : slot) : jsstring :=
  match s with
  | s_fullName =>
      trim (join (lit " ") (filter_Boolean [firstName data; lastName data]))
  | s_jobLine =>
      trim (join [32; 8226; 32] (filter_Boolean [jobTitle data; department data]))
  | s_company => trim (or_else (companyName data) [])
  | s_officePhone => trim (or_else (officePhone data) [])
  | s_mobilePhone => trim (or_else (mobilePhone data) [])
  | s_email => trim (or_else (emailAddress data) [])
  | s_website => website_value data
  | s_websiteText => strip_anchored re_https (website_value data)
  | s_address => trim (or_else (address data) [])
  | s_logoSrc =>
      or_else (trim (or_else (logoDataUrl data) []))
        (if is_empty (trim (or_else (logoUrl data) [])) then []
         else normalizeUrl (logoUrl data))
  | s_url k => normalizeUrl (social_field data k)
  | s_legal => trim (or_else (legal data) [])
  end.

Definition present (data : FormData) (s : slot) : bool :=
  negb (is_empty (slot_value data s)).

(** The entry of the array [socials] for a key. *)
Definition social_of (data : FormData) (k : SocialKey) : Social :=
  {| key := k; label := social_label k; url := slot_value data (s_url k) |}.

(** The output as a sequence of items: markup, the escaped value of a
    slot, or the escaped value of a slot with its line feeds turned into
    line breaks. *)
Inductive item :=
| Lit (m : jsstring)
| Val (s : slot)
| ValBr (s : slot).

Definition fill (data : FormData) (i : item) : jsstring :=
  match i with
  | Lit m => m
  | Val s => escapeHtml (slot_value data s)
  | ValBr s =>
      replaceAll (re_lit [10]) (lit "<br/>") (escapeHtml (slot_value data s))
  end.

Definition theme_of (opts : BuildOpts) : ThemeName :=
  match theme opts with Some dark => dark | _ => light end.

Definition no_icons : SocialIcons :=
  {| icon_linkedin := []; icon_facebook := []; icon_twitter := [];
     icon_instagram := []; icon_whatsapp := [] |}.

(** The icons of a theme, once the module has loaded. *)
Definition icons_of (th : ThemeName) : SocialIcons :=
  match match th with dark => SOCIAL_DARK | light => SOCIAL_LIGHT end with
  | Normal icons => icons
  | Throw _ => no_icons
  end.

(** *** The markup around the values

    The markup of the output, as a function of the theme and of the slots
    that have a value: it does not see the record. *)

Definition when (b : bool) (items : list item) : list item :=
  if b then items else [].

Definition rowItems (th : ThemeName) (inner : list item) : list item :=
  [Lit (tpl "
<tr>
  <td style=`padding:2px 0; " ++ baseTd ++ tpl " font-size:14px; line-height:18px; color:" ++ gray600 th ++ tpl ";`>")]
  ++ inner ++ [Lit (tpl "</td>
</tr>")].

Definition officeItems (th : ThemeName) : list item :=
  [Lit (tpl "<span style=`color:" ++ gray500 th ++ tpl ";`>Office:</span> <a href=`tel:");
   Val s_officePhone;
   Lit (tpl "` style=`color:" ++ gray600 th ++ tpl "; text-decoration:none;`>");
   Val s_officePhone;
   Lit (tpl "</a>")].

Definition mobileItems (th : ThemeName) : list item :=
  [Lit (tpl "<span style=`color:" ++ gray500 th ++ tpl ";`>Mobile:</span> <a href=`tel:");
   Val s_mobilePhone;
   Lit (tpl "` style=`color:" ++ gray600 th ++ tpl "; text-decoration:none;`>");
   Val s_mobilePhone;
   Lit (tpl "</a>")].

Definition emailItems (th : ThemeName) : list item :=
  [Lit (tpl "<a href=`mailto:");
   Val s_email;
   Lit (tpl "` style=`color:" ++ gray600 th ++ tpl "; text-decoration:none;`>");
   Val s_email;
   Lit (tpl "</a>")].

Definition webItems (th : ThemeName) : list item :=
  [Lit (tpl "<a href=`");
   Val s_website;
   Lit (tpl "` style=`color:" ++ gray600 th ++ tpl "; text-decoration:none;`>");
   Val s_websiteText;
   Lit (tpl "</a>")].

Definition addressItems (th : ThemeName) : list item :=
  [Lit (tpl "<span style=`color:" ++ gray600 th ++ tpl ";`>");
   Val s_address;
   Lit (tpl "</span>")].

Definition cellItems (th : ThemeName) (k : SocialKey) : list item :=
  [Lit (tpl "<td style=`padding-right:8px;`><a href=`");
   Val (s_url k);
   Lit (tpl "` style=`text-decoration:none;` target=`_blank` rel=`noopener noreferrer`><img src=`");
   Lit (icon_of (icons_of th) k);
   Lit (tpl "` width=`24` height=`24` style=`display:block; border:0; outline:none; text-decoration:none;` alt=`");
   Lit (escapeHtml (social_label k));
   Lit (tpl "` /></a></td>")].

Definition socialItems (th : ThemeName) (p : slot -> bool) : list item :=
  when (existsb (fun k => p (s_url k)) social_keys)
    ([Lit (tpl "
<tr>
  <td style=`padding-top:10px; " ++ baseTd ++ tpl "`>
    <table role=`presentation` cellpadding=`0` cellspacing=`0` border=`0` style=`border-collapse:collapse; " ++ baseTd ++ tpl "`>
      <tr>
        ")]
     ++ flat_map (fun k => when (p (s_url k)) (cellItems th k)) social_keys
     ++ [Lit (tpl "
      </tr>
    </table>
  </td>
</tr>")]).

Definition nameItems (th : ThemeName) : list item :=
  [Lit (tpl "<div style=`" ++ baseTd ++ tpl " font-size:18px; line-height:22px; font-weight:700; color:" ++ black th ++ tpl ";`>");
   Val s_fullName;
   Lit (tpl "</div>")].

Definition jobItems (th : ThemeName) : list item :=
  [Lit (tpl "<div style=`" ++ baseTd ++ tpl " padding-top:2px; font-size:14px; line-height:18px; color:" ++ gray600 th ++ tpl ";`>");
   Val s_jobLine;
   Lit (tpl "</div>")].

Definition companyItems (th : ThemeName) : list item :=
  [Lit (tpl "<div style=`" ++ baseTd ++ tpl " padding-top:2px; font-size:14px; line-height:18px; color:" ++ gray400 th ++ tpl ";`>");
   Val s_company;
   Lit (tpl "</div>")].

Definition headerItems (th : ThemeName) (p : slot -> bool) : list item :=
  if p s_logoSrc then
    [Lit (tpl "
<table role=`presentation` cellpadding=`0` cellspacing=`0` border=`0` style=`border-collapse:collapse; " ++ baseTd ++ tpl "`>
  <tr>
    <td style=`vertical-align:top; padding-right:12px;`>
      <img src=`");
     Val s_logoSrc;
     Lit (tpl "` width=`48` height=`48` style=`display:block; border:0; outline:none; text-decoration:none; border-radius:10px;` alt=`` />
    </td>
    <td style=`vertical-align:top; " ++ baseTd ++ tpl "`>
      ")]
    ++ when (p s_fullName) (nameItems th)
    ++ [Lit (tpl "
      ")]
    ++ when (p s_jobLine) (jobItems th)
    ++ [Lit (tpl "
      ")]
    ++ when (p s_company) (companyItems th)
    ++ [Lit (tpl "
    </td>
  </tr>
</table>")]
  else
    [Lit (tpl "
")]
    ++ when (p s_fullName) (nameItems th)
    ++ [Lit (tpl "
")]
    ++ when (p s_jobLine) (jobItems th)
    ++ [Lit (tpl "
")]
    ++ when (p s_company) (companyItems th).

Definition legalItems (th : ThemeName) : list item :=
  [Lit (tpl "
<tr>
  <td style=`padding-top:12px; " ++ baseTd ++ tpl " font-size:11px; line-height:15px; color:" ++ gray400 th ++ tpl "; max-width:420px;`>");
   ValBr s_legal;
   Lit (tpl "</td>
</tr>")].

Definition skeleton (th : ThemeName) (p : slot -> bool) : list item :=
  [Lit (tpl "<table role=`presentation` cellpadding=`0` cellspacing=`0` border=`0` style=`border-collapse:collapse; " ++ baseTd ++ tpl "`>
  <tr>
    <td style=`padding:0; " ++ baseTd ++ tpl "`>
      <table role=`presentation` cellpadding=`0` cellspacing=`0` border=`0` style=`border-collapse:collapse; " ++ baseTd ++ tpl "`>
        <tr>
          <td style=`padding:0; " ++ baseTd ++ tpl "`>")]
  ++ headerItems th p
  ++ [Lit (tpl "</td>
        </tr>

        <tr>
          <td style=`padding-top:10px; " ++ baseTd ++ tpl "`>
            <table role=`presentation` cellpadding=`0` cellspacing=`0` border=`0` style=`border-collapse:collapse; " ++ baseTd ++ tpl "`>
              ")]
  ++ when (p s_officePhone) (rowItems th (officeItems th))
  ++ [Lit (tpl "
              ")]
  ++ when (p s_mobilePhone) (rowItems th (mobileItems th))
  ++ [Lit (tpl "
              ")]
  ++ when (p s_email) (rowItems th (emailItems th))
  ++ [Lit (tpl "
              ")]
  ++ when (p s_website) (rowItems th (webItems th))
  ++ [Lit (tpl "
              ")]
  ++ when (p s_address) (rowItems th (addressItems th))
  ++ [Lit (tpl "
            </table>
          </td>
        </tr>

        ")]
  ++ socialItems th p
  ++ [Lit (tpl "

        ")]
  ++ when (p s_legal) (legalItems th)
  ++ [Lit (tpl "
      </table>
    </td>
  </tr>
</table>")].

(** *** More on escaping *)

(** The five characters that [escapeHtml] replaces. *)
Definition special (c : N) : bool := (c =? 38) || delimiter c.

(** *** Icons *)

(** The characters that would close or break a double-quoted attribute,
    or open a reference in it: the double quote, [<], [>], [&] and the
    line feed. *)
Definition uri_breaks (c : N) : bool :=
  (c =? 34) || (c =? 60) || (c =? 62) || (c =? 38) || (c =? 10).

(** *** Records *)

(** The record with the white space taken off the two ends of every
    field that is not a part of the name or of the job line. *)
Definition trimmed_fields (data : FormData) : FormData :=
  {| firstName := firstName data;
     lastName := lastName data;
     jobTitle := jobTitle data;
     department := department data;
     companyName := trim (companyName data);
     officePhone := trim (officePhone data);
     mobilePhone := trim (mobilePhone data);
     websiteUrl := trim (websiteUrl data);
     emailAddress := trim (emailAddress data);
     address := trim (address data);
     logoUrl := trim (logoUrl data);
     logoDataUrl := trim (logoDataUrl data);
     linkedin := trim (linkedin data);
     facebook := trim (facebook data);
     twitter := trim (twitter data);
     instagram := trim (instagram data);
     whatsapp := trim (whatsapp data);
     legal := trim (legal data) |}.

(** The record with another logo URL. *)
Definition with_logoUrl (u : jsstring) (data : FormData) : FormData :=
  {| firstName := firstName data;
     lastName := lastName data;
     jobTitle := jobTitle data;
     department := department data;
     companyName := companyName data;
     officePhone := officePhone data;
     mobilePhone := mobilePhone data;
     websiteUrl := websiteUrl data;
     emailAddress := emailAddress data;
     address := address data;
     logoUrl := u;
     logoDataUrl := logoDataUrl data;
     linkedin := linkedin data;
     facebook := facebook data;
     twitter := twitter data;
     instagram := instagram data;
     whatsapp := whatsapp data;
     legal := legal data |}.

(** The number of line feeds of a text. *)
Definition linefeeds (s : jsstring) : nat := length (filter (N.eqb 10) s).

(** The record of the scenario with an embedded logo. *)
Definition scenario_logo : FormData :=
  {| firstName := lit "Alex"; lastName := lit "Johnson"; jobTitle := [];
     department := []; companyName := []; officePhone := [];
     mobilePhone := []; websiteUrl := []; emailAddress := lit "a@b.com";
     address := []; logoUrl := [];
     logoDataUrl := lit "data:image/png;base64,AAAA"; linkedin := [];
     facebook := []; twitter := []; instagram := []; whatsapp := [];
     legal := [] |}.

(** A record with values in the slots of the scenario, and with markup
    characters in them. *)
Definition scenario_markup : FormData :=
  {| firstName := lit "<b>Al</b>"; lastName := []; jobTitle := [];
     department := []; companyName := []; officePhone := [];
     mobilePhone := []; websiteUrl := []; emailAddress := lit "a'b@<c>.de";
     address := []; logoUrl := []; logoDataUrl := []; linkedin := [];
     facebook := []; twitter := []; instagram := []; whatsapp := [];
     legal := [] |}.

(** *** The languages of the patterns *)

Inductive matches : pattern -> list N -> Prop :=
| m_empty : matches Empty []
| m_class p c : p c = true -> matches (Class p) [c]
| m_then a b s t : matches a s -> matches b t -> matches (Then a b) (s ++ t)
| m_left a b s : matches a s -> matches (Or a b) s
| m_right a b s : matches b s -> matches (Or a b) s
| m_none a : matches (Many a) []
| m_more a s t :
    matches a s -> matches (Many a) t -> matches (Many a) (s ++ t).

(** A code unit that a character of an address may be. *)
Definition address_unit (c : N) : Prop := isWhiteSpace c = false /\ c <> 64.

(** *** The transforms that read code point by code point *)

Section CodePoints.

Context {U : Unicode}.

(** What [toggleCase] makes of one code point. *)
Definition toggled (c : N) : jsstring :=
  if isL c then
    if str_eqb [c] (toLocaleUpperCase [c]) then toLocaleLowerCase [c]
    else toLocaleUpperCase [c]
  else [c].


(** [alternatingCase] from a given phase. *)
Fixpoint alternate (flip : bool) (s : jsstring) : jsstring :=
  match s with
  | [] => []
  | c :: rest =>
      if isL c then
        (if flip then toLocaleUpperCase [c] else toLocaleLowerCase [c])
        ++ alternate (negb flip) rest
      else c :: alternate flip rest
  end.

(** The six keys of the delimiter transforms. *)
Definition delimiter_keys : list jsstring :=
  [lit "camel"; lit "pascal"; lit "snake"; lit "kebab"; lit "dot"; lit "space"].

(** The keys of the transforms that leave a text without letters as it
    is. *)
Definition letter_keys : list jsstring :=
  [lit "upper"; lit "lower"; lit "title"; lit "toggle"; lit "alternating"].

End CodePoints.

(** *** Hosts that agree with Basic Latin *)

(** A text of Basic Latin. *)
Definition ascii (s : jsstring) : Prop := Forall (fun c => c < 128) s.

(** The tables of the host agree with the Basic Latin ones on Basic
    Latin: on its code points for the two categories, on its texts for the
    case mappings.  The tables of Unicode do, with the case mappings of a
    locale that has no rule of its own for these letters. *)
Definition basic_latin_host (U : Unicode) : Prop :=
  (forall c, c < 128 -> @isL U c = @isL BasicLatin.tables c)
  /\ (forall c, c < 128 -> @isN U c = @isN BasicLatin.tables c)
  /\ (forall w, ascii w -> @toLocaleUpperCase U w = map BasicLatin.upper1 w)
  /\ (forall w, ascii w -> @toLocaleLowerCase U w = map BasicLatin.lower1 w).

(** Tables that know the letters of the Latin-1 Supplement as well. *)
Module Latin1.

Definition accented (c : N) : bool :=
  (192 <=? c) && (c <=? 254) && negb (c =? 215) && negb (c =? 247).

Definition upper1 (c : N) : N :=
  if (224 <=? c) && accented c then c - 32 else BasicLatin.upper1 c.

Definition lower1 (c : N) : N :=
  if (c <=? 222) && accented c then c + 32 else BasicLatin.lower1 c.

Definition tables : Unicode := {|
  isL := fun c => @isL BasicLatin.tables c || accented c;
  isN := @isN BasicLatin.tables;
  toLocaleUpperCase := map upper1;
  toLocaleLowerCase := map lower1
|}.

End Latin1.

(* ===================================================================== *)
(** ** Properties *)
(* ===================================================================== *)

(** *** Strings *)

Lemma str_eqb_eq (a b : jsstring) : str_eqb a b = true <-> a = b.
Proof.
  revert b; induction a as [|x a IH]; intros [|y b]; simpl;
    try (split; (congruence || discriminate)).
  rewrite andb_true_iff, N.eqb_eq, IH. split.
  - now intros [-> ->].
  - intros H; injection H; auto.
Qed.

Lemma str_eqb_refl (a : jsstring) : str_eqb a a = true.
Proof. now apply str_eqb_eq. Qed.

Lemma str_eqb_neq (a b : jsstring) : a <> b -> str_eqb a b = false.
Proof.
  intros H. destruct (str_eqb a b) eqn:E; [|reflexivity].
  apply str_eqb_eq in E. contradiction.
Qed.

Lemma or_else_nil (s : jsstring) : or_else s [] = s.
Proof. now destruct s. Qed.

Lemma is_empty_true (s : jsstring) : is_empty s = true <-> s = [].
Proof. destruct s; simpl; split; congruence. Qed.

Lemma is_empty_false (s : jsstring) : is_empty s = false <-> s <> [].
Proof. destruct s; simpl; split; congruence. Qed.

Lemma join_nil (parts : list jsstring) : join [] parts = concat parts.
Proof.
  induction parts as [|p parts IH]; simpl; auto.
  destruct parts; [now rewrite app_nil_r|]. now rewrite <- IH.
Qed.

Lemma concat_Array_from (s : jsstring) : concat (Array_from s) = s.
Proof. induction s as [|c s IH]; simpl; congruence. Qed.

(** *** Trimming *)

Lemma trimStart_split (s : jsstring) :
  exists pre,
    s = pre ++ trimStart s
    /\ Forall (fun c => isWhiteSpace c = true) pre
    /\ no_ws_head (trimStart s).
Proof.
  induction s as [|c s IH]; simpl.
  - exists []. repeat split; constructor.
  - destruct (isWhiteSpace c) eqn:E.
    + destruct IH as (pre & Hs & Hpre & Hh).
      exists (c :: pre). repeat split; auto.
      simpl. now rewrite <- Hs.
    + exists []. repeat split; auto.
Qed.

Lemma trimStart_fixed (s : jsstring) : no_ws_head s -> trimStart s = s.
Proof. destruct s as [|c s]; simpl; auto. now intros ->. Qed.

Lemma trimStart_ws (pre s : jsstring) :
  Forall (fun c => isWhiteSpace c = true) pre ->
  trimStart (pre ++ s) = trimStart s.
Proof. induction 1 as [|c pre Hc _ IH]; simpl; auto. now rewrite Hc. Qed.

Lemma no_ws_head_app (a b : jsstring) :
  a <> [] -> no_ws_head (a ++ b) -> no_ws_head a.
Proof. destruct a; simpl; congruence. Qed.

Lemma trim_is_trim_of (raw : jsstring) : is_trim_of raw (trim raw).
Proof.
  unfold trim, trimEnd.
  destruct (trimStart_split raw) as (pre & Hraw & Hpre & Hhead).
  destruct (trimStart_split (rev (trimStart raw))) as (tl & Hrev & Htl & Hlast).
  set (t := trimStart raw) in *. set (u := trimStart (rev t)) in *.
  assert (Ht : t = rev u ++ rev tl).
  { rewrite <- rev_app_distr, <- Hrev. now rewrite rev_involutive. }
  exists pre, (rev tl). repeat split.
  - now rewrite <- Ht.
  - exact Hpre.
  - apply Forall_rev. exact Htl.
  - destruct (rev u) eqn:E; [exact I|].
    apply no_ws_head_app with (b := rev tl); [discriminate|].
    rewrite <- Ht. exact Hhead.
  - now rewrite rev_involutive.
Qed.

Lemma is_trim_of_unique (raw v : jsstring) : is_trim_of raw v -> v = trim raw.
Proof.
  intros (pre & post & -> & Hpre & Hpost & Hh & Hl).
  unfold trim, trimEnd. rewrite (trimStart_ws _ _ Hpre).
  destruct v as [|c v].
  - simpl. replace (trimStart post) with (@nil N); [reflexivity|].
    rewrite <- (app_nil_r post). now rewrite trimStart_ws.
  - rewrite (trimStart_fixed ((c :: v) ++ post)) by exact Hh.
    rewrite rev_app_distr. rewrite trimStart_ws by now apply Forall_rev.
    rewrite trimStart_fixed by exact Hl. now rewrite rev_involutive.
Qed.

Lemma trim_fixed (v : jsstring) :
  no_ws_head v -> no_ws_head (rev v) -> trim v = v.
Proof.
  intros Hh Hl. symmetry. apply is_trim_of_unique.
  exists [], []. rewrite app_nil_r. repeat split; auto.
Qed.

(** *** [normalizeUrl] *)

Lemma canonicalize_fold (x y : N) :
  (canonicalize x =? canonicalize y) = true <-> fold_case x = fold_case y.
Proof.
  rewrite N.eqb_eq. unfold canonicalize, fold_case.
  destruct (N.leb_spec 97 x), (N.leb_spec x 122), (N.leb_spec 97 y),
    (N.leb_spec y 122), (N.leb_spec 65 x), (N.leb_spec x 90),
    (N.leb_spec 65 y), (N.leb_spec y 90); simpl; lia.
Qed.

Lemma starts_with_ci (p s : jsstring) :
  starts_with (fun x y => canonicalize x =? canonicalize y) p s = true
  <-> exists pre rest, s = pre ++ rest /\ same_ignoring_case pre p.
Proof.
  unfold same_ignoring_case. revert s; induction p as [|x p IH]; intros s; simpl.
  - split; auto. intros _. exists [], s. auto.
  - destruct s as [|y s].
    + split; [discriminate|]. intros (pre & rest & H & E).
      symmetry in H. apply app_eq_nil in H as [-> _]. discriminate.
    + rewrite andb_true_iff, canonicalize_fold, IH. split.
      * intros (Hxy & pre & rest & -> & E).
        exists (y :: pre), rest. simpl. split; auto. congruence.
      * intros (pre & rest & H & E). destruct pre as [|z pre]; [discriminate|].
        simpl in H, E. injection H as <- ->. injection E as E1 E2.
        split; [congruence|]. now exists pre, rest.
Qed.

Lemma re_lit_i_some (p s : jsstring) :
  (exists n, re_lit_i p s = Some n)
  <-> exists pre rest, s = pre ++ rest /\ same_ignoring_case pre p.
Proof.
  rewrite <- starts_with_ci. unfold re_lit_i.
  destruct (starts_with _ p s); split; eauto; try discriminate.
  intros (n & H). discriminate.
Qed.

Lemma test_scheme (v : jsstring) :
  test_anchored re_scheme v = true <-> has_scheme v.
Proof.
  unfold has_scheme, schemes, test_anchored, re_scheme, re_https. simpl.
  pose proof (re_lit_i_some (lit "mailto:") v) as H1.
  pose proof (re_lit_i_some (lit "tel:") v) as H2.
  pose proof (re_lit_i_some (lit "https://") v) as H3.
  pose proof (re_lit_i_some (lit "http://") v) as H4.
  split.
  - intros H.
    destruct (re_lit_i (lit "mailto:") v) eqn:E1.
    { destruct H1 as [H1 _]. destruct H1 as (pre & rest & ? & ?); eauto.
      exists (lit "mailto:"), pre, rest. simpl; auto. }
    destruct (re_lit_i (lit "tel:") v) eqn:E2.
    { destruct H2 as [H2 _]. destruct H2 as (pre & rest & ? & ?); eauto.
      exists (lit "tel:"), pre, rest. simpl; auto. }
    destruct (re_lit_i (lit "https://") v) eqn:E3.
    { destruct H3 as [H3 _]. destruct H3 as (pre & rest & ? & ?); eauto.
      exists (lit "https://"), pre, rest. simpl; auto 6. }
    destruct (re_lit_i (lit "http://") v) eqn:E4.
    { destruct H4 as [H4 _]. destruct H4 as (pre & rest & ? & ?); eauto.
      exists (lit "http://"), pre, rest. simpl; auto 6. }
    discriminate.
  - intros (p & pre & rest & Hin & Hv & Hc).
    assert (Hex : exists pre rest, v = pre ++ rest /\ same_ignoring_case pre p)
      by eauto.
    destruct Hin as [<-|[<-|[<-|[<-|[]]]]].
    + apply H1 in Hex as (n & ->). reflexivity.
    + apply H2 in Hex as (n & ->). now destruct (re_lit_i (lit "mailto:") v).
    + apply H4 in Hex as (n & ->).
      destruct (re_lit_i (lit "mailto:") v); auto.
      destruct (re_lit_i (lit "tel:") v); auto.
      now destruct (re_lit_i (lit "https://") v).
    + apply H3 in Hex as (n & ->).
      destruct (re_lit_i (lit "mailto:") v); auto.
      now destruct (re_lit_i (lit "tel:") v).
Qed.

(** C4.  [normalizeUrl] trims the white space at the two ends of its
    argument; when nothing is left it returns the empty string; when what
    is left starts, whatever the case of the letters, with [mailto:],
    [tel:], [http://] or [https://], it returns it as it is; otherwise it
    returns it behind [https://].  The three examples of the
    specification follow. *)
Theorem normalizeUrl_contract :
  (forall raw, url_contract raw (normalizeUrl raw))
  /\ normalizeUrl (lit "example.com") = lit "https://example.com"
  /\ normalizeUrl (lit "https://x.com") = lit "https://x.com"
  /\ normalizeUrl [] = [].
Proof.
  split; [|repeat split; reflexivity].
  intros raw. unfold normalizeUrl. rewrite or_else_nil.
  pose proof (trim_is_trim_of raw) as Ht.
  destruct (is_empty (trim raw)) eqn:E.
  - apply is_empty_true in E. rewrite E in Ht. now constructor.
  - apply is_empty_false in E.
    destruct (test_anchored re_scheme (trim raw)) eqn:T.
    + apply url_kept; auto. now apply test_scheme.
    + apply url_prefixed; auto. intros H. apply test_scheme in H. congruence.
Qed.

(** *** Completions of the case converter *)

Section Completions.

Context {U : Unicode}.

Lemma replaceWith_from_returns (r : regex) (fn : jsstring -> M jsstring) :
  (forall w, exists out, fn w = Normal out) ->
  forall s skip, exists out, replaceWith_from r fn skip s = Normal out.
Proof.
  intros Hfn. induction s as [|c s IH]; intros skip; cbn [replaceWith_from].
  - now exists [].
  - destruct skip as [|k]; [|apply IH].
    destruct (r (c :: s)) as [[|n]|].
    + destruct (IH O) as (out & ->). simpl. eauto.
    + destruct (Hfn (firstn (S n) (c :: s))) as (w & ->).
      destruct (IH n) as (out & ->). simpl. eauto.
    + destruct (IH O) as (out & ->). simpl. eauto.
Qed.

Lemma capitalize_returns (w : jsstring) : exists out, capitalize w = Normal out.
Proof.
  unfold capitalize, Array_from.
  destruct (toLocaleLowerCase w) as [|c low]; simpl; eauto.
Qed.

Lemma mapM_returns {A B} (f : A -> M B) (xs : list A) :
  (forall x, exists y, f x = Normal y) -> exists ys, mapM f xs = Normal ys.
Proof.
  intros Hf. induction xs as [|x xs IH]; simpl; eauto.
  destruct (Hf x) as (y & ->). destruct IH as (ys & ->). simpl. eauto.
Qed.

Lemma toTitleCase_returns (text : jsstring) :
  exists out, toTitleCase text = Normal out.
Proof. apply replaceWith_from_returns, capitalize_returns. Qed.

Lemma toCamelCase_returns (text : jsstring) :
  exists out, toCamelCase text = Normal out.
Proof.
  unfold toCamelCase. destruct (splitWords text) as [|w ws]; simpl; eauto.
  destruct (mapM_returns capitalize (skipn 0 ws) capitalize_returns) as (ys & E).
  simpl in E. rewrite E. simpl. eauto.
Qed.

Lemma toPascalCase_returns (text : jsstring) :
  exists out, toPascalCase text = Normal out.
Proof.
  unfold toPascalCase.
  destruct (mapM_returns capitalize (splitWords text) capitalize_returns)
    as (ys & ->).
  simpl. eauto.
Qed.

Lemma computeOutput_returns (text : jsstring) (preserve : bool) (active : jsstring) :
  exists out, computeOutput text preserve active = Normal out.
Proof.
  unfold computeOutput, preserveWordTransform, ret.
  repeat match goal with
         | |- context [if str_eqb ?a ?b then _ else _] => destruct (str_eqb a b)
         end;
    try (destruct preserve);
    eauto using toTitleCase_returns, toCamelCase_returns, toPascalCase_returns;
    apply replaceWith_from_returns; eauto.
Qed.

End Completions.

Lemma SOCIAL_returns (th : ThemeName) :
  exists icons,
    match th with dark => SOCIAL_DARK | light => SOCIAL_LIGHT end = Normal icons.
Proof. destruct th; eexists; vm_compute; reflexivity. Qed.

(** C2.  [buildSignatureHTML] and [computeOutput] return a string and
    raise nothing, for every record of strings, with or without a theme,
    and for every text, flag and key, whatever the Unicode tables of the
    host. *)
Theorem core_never_throws :
  (forall data opts, exists html, buildSignatureHTML data opts = Normal html)
  /\ (forall (U : Unicode) text preserve active,
        exists out, computeOutput text preserve active = Normal out).
Proof.
  split.
  - intros data opts. unfold buildSignatureHTML.
    destruct (SOCIAL_returns
                match theme opts with Some dark => dark | _ => light end)
      as (icons & E).
    rewrite E. simpl. eauto.
  - intros U text preserve active. apply computeOutput_returns.
Qed.

Section Dispatch.

Context {U : Unicode}.

(** C10.  With a key that is none of the twelve, [computeOutput] returns
    its input text as it is, whatever the flag. *)
Theorem computeOutput_unknown_key (text : jsstring) (preserve : bool)
  (active : jsstring) :
  ~ In active action_keys -> computeOutput text preserve active = Normal text.
Proof.
  intros H. unfold computeOutput.
  repeat (rewrite str_eqb_neq;
          [|intros ->; apply H; unfold action_keys; simpl; tauto]).
  reflexivity.
Qed.

(** C3, amended.  For the keys title, sentence, toggle and alternating,
    the output without the flag is the output with the flag for the
    trimmed text: the flag decides whether the white space at the two ends
    of the input is kept.  On a text that neither begins nor ends with
    white space the flag then changes nothing. *)
Theorem preserve_flag_trims (text : jsstring) :
  (computeOutput text false (lit "title")
     = computeOutput (trim text) true (lit "title")
   /\ computeOutput text false (lit "sentence")
     = computeOutput (trim text) true (lit "sentence")
   /\ computeOutput text false (lit "toggle")
     = computeOutput (trim text) true (lit "toggle")
   /\ computeOutput text false (lit "alternating")
     = computeOutput (trim text) true (lit "alternating"))
  /\ (no_ws_head text -> no_ws_head (rev text) ->
      computeOutput text false (lit "title")
        = computeOutput text true (lit "title")
      /\ computeOutput text false (lit "sentence")
        = computeOutput text true (lit "sentence")
      /\ computeOutput text false (lit "toggle")
        = computeOutput text true (lit "toggle")
      /\ computeOutput text false (lit "alternating")
        = computeOutput text true (lit "alternating")).
Proof.
  assert (H : forall t,
             computeOutput t false (lit "title")
               = computeOutput (trim t) true (lit "title")
             /\ computeOutput t false (lit "sentence")
               = computeOutput (trim t) true (lit "sentence")
             /\ computeOutput t false (lit "toggle")
               = computeOutput (trim t) true (lit "toggle")
             /\ computeOutput t false (lit "alternating")
               = computeOutput (trim t) true (lit "alternating")).
  { intros t. repeat split; reflexivity. }
  split; [apply H|].
  intros Hh Hl. specialize (H text).
  rewrite (trim_fixed text Hh Hl) in H. exact H.
Qed.

End Dispatch.

(** The key [shout] is none of the twelve. *)
Lemma computeOutput_unknown_key_witness :
  ~ In (lit "shout") action_keys
  /\ @computeOutput BasicLatin.tables (lit " a") false (lit "shout")
     = Normal (lit " a").
Proof.
  assert (H : ~ In (lit "shout") action_keys).
  { unfold action_keys. simpl.
    intros [H|[H|[H|[H|[H|[H|[H|[H|[H|[H|[H|[H|[]]]]]]]]]]]]]; discriminate H. }
  split; [exact H|].
  apply (@computeOutput_unknown_key BasicLatin.tables (lit " a") false (lit "shout")).
  exact H.
Defined.

(** The text `ab cd' has no white space at its ends. *)
Lemma preserve_flag_trims_witness :
  no_ws_head (lit "ab cd") /\ no_ws_head (rev (lit "ab cd"))
  /\ @computeOutput BasicLatin.tables (lit "ab cd") false (lit "title")
     = @computeOutput BasicLatin.tables (lit "ab cd") true (lit "title")
  /\ @computeOutput BasicLatin.tables (lit "ab cd") false (lit "sentence")
     = @computeOutput BasicLatin.tables (lit "ab cd") true (lit "sentence")
  /\ @computeOutput BasicLatin.tables (lit "ab cd") false (lit "toggle")
     = @computeOutput BasicLatin.tables (lit "ab cd") true (lit "toggle")
  /\ @computeOutput BasicLatin.tables (lit "ab cd") false (lit "alternating")
     = @computeOutput BasicLatin.tables (lit "ab cd") true (lit "alternating").
Proof.
  assert (Hh : no_ws_head (lit "ab cd")) by reflexivity.
  assert (Hl : no_ws_head (rev (lit "ab cd"))) by reflexivity.
  split; [exact Hh|]. split; [exact Hl|].
  exact (proj2 (@preserve_flag_trims BasicLatin.tables (lit "ab cd")) Hh Hl).
Defined.

(** C3 as stated fails: on the text made of a space and the letter a,
    toggle keeps the space with the flag and drops it without. *)
Lemma preserve_flag_changes_toggle :
  @computeOutput BasicLatin.tables (lit " a") true (lit "toggle")
    = Normal (lit " A")
  /\ @computeOutput BasicLatin.tables (lit " a") false (lit "toggle")
    = Normal (lit "A")
  /\ @computeOutput BasicLatin.tables (lit " a") true (lit "toggle")
     <> @computeOutput BasicLatin.tables (lit " a") false (lit "toggle").
Proof. repeat split. vm_compute. discriminate. Qed.

(** *** The scenario *)

(** C8.  For the record that only has the first name Alex, the last name
    Johnson and the address a@b.com, with either theme, the output has the
    name header with the text Alex Johnson, one contact row, whose link
    goes to [mailto:a@b.com] and is the only link of the output, no image
    (neither a logo nor an icon), no cell of the row of icons, and no
    block of legal text; its four [<tr>] are the three of the frame and
    the one of the contact row. *)
Theorem scenario_output (opts : BuildOpts) :
  exists html,
    buildSignatureHTML scenario opts = Normal html
    /\ occurrences (lit "font-weight:700;") html = 1%nat
    /\ occurrences (lit ">Alex Johnson</div>") html = 1%nat
    /\ occurrences (lit "padding:2px 0;") html = 1%nat
    /\ occurrences (tpl "<a href=`mailto:a@b.com`") html = 1%nat
    /\ occurrences (lit ">a@b.com</a></td>") html = 1%nat
    /\ occurrences (lit "<a ") html = 1%nat
    /\ occurrences (lit "<img") html = O
    /\ occurrences (lit "padding-right:8px;") html = O
    /\ occurrences (lit "padding-top:10px;") html = 1%nat
    /\ occurrences (lit "padding-top:12px;") html = O
    /\ occurrences (lit "max-width:420px;") html = O
    /\ occurrences (lit "<tr>") html = 4%nat.
Proof.
  destruct opts as [[[|]|]]; eexists; (split; [vm_compute; reflexivity|]);
    repeat split; vm_compute; reflexivity.
Qed.

(** *** Words rewritten in place *)

Section Words.

Context {U : Unicode}.

Lemma alnum_false_isL (c : N) : alnum c = false -> isL c = false.
Proof. unfold alnum. now intros [? _]%orb_false_iff. Qed.

Lemma take_drop (p : N -> bool) (s : jsstring) :
  s = takeWhile p s ++ dropWhile p s.
Proof. induction s as [|c s IH]; simpl; auto. destruct (p c); simpl; congruence. Qed.

Lemma takeWhile_all (p : N -> bool) (s : jsstring) :
  Forall (fun x => p x = true) (takeWhile p s).
Proof. induction s as [|c s IH]; simpl; auto. destruct (p c) eqn:E; auto. Qed.

Lemma dropWhile_head (p : N -> bool) (s : jsstring) :
  match dropWhile p s with c :: _ => p c = false | [] => True end.
Proof. induction s as [|c s IH]; simpl; auto. destruct (p c) eqn:E; auto. Qed.

Lemma dropWhile_length (p : N -> bool) (s : jsstring) :
  (length (dropWhile p s) <= length s)%nat.
Proof. induction s as [|c s IH]; simpl; auto. destruct (p c); simpl; lia. Qed.

Lemma firstn_takeWhile (p : N -> bool) (s : jsstring) :
  firstn (length (takeWhile p s)) s = takeWhile p s.
Proof. induction s as [|c s IH]; simpl; auto. destruct (p c); simpl; congruence. Qed.

Lemma replaceWith_from_skip (r : regex) (fn : jsstring -> M jsstring)
  (pre s : jsstring) :
  replaceWith_from r fn (length pre) (pre ++ s) = replaceWith_from r fn O s.
Proof.
  induction pre as [|c pre IH]; simpl; auto.
Qed.

Lemma replaceWith_word (fn : jsstring -> M jsstring) (c : N) (rest : jsstring) :
  isL c = true ->
  replaceWith_from re_word fn O (c :: rest)
  = (w <- fn (c :: takeWhile alnum rest) ;;
     out <- replaceWith_from re_word fn O (dropWhile alnum rest) ;;
     ret (w ++ out)).
Proof.
  intros Hc. cbn [replaceWith_from]. unfold re_word at 1, re_then_star.
  rewrite Hc. cbn [firstn]. rewrite firstn_takeWhile.
  rewrite <- (replaceWith_from_skip re_word fn (takeWhile alnum rest)).
  now rewrite <- take_drop.
Qed.

Lemma replaceWith_gap (fn : jsstring -> M jsstring) (c : N) (rest : jsstring) :
  isL c = false ->
  replaceWith_from re_word fn O (c :: rest)
  = (out <- replaceWith_from re_word fn O rest ;; ret (c :: out)).
Proof.
  intros Hc. cbn [replaceWith_from]. unfold re_word at 1, re_then_star.
  now rewrite Hc.
Qed.

Lemma words_in_exists (s : jsstring) : exists segs, words_in s segs.
Proof.
  remember (length s) as n eqn:En.
  revert s En. induction n as [n IH] using lt_wf_ind. intros [|c rest] En.
  - exists []. constructor.
  - simpl in En. destruct (isL c) eqn:Hc.
    + destruct (IH (length (dropWhile alnum rest))) with (s := dropWhile alnum rest)
        as (segs & Hsegs); auto.
      { pose proof (dropWhile_length alnum rest). lia. }
      exists (Word (c :: takeWhile alnum rest) :: segs).
      rewrite (take_drop alnum rest) at 1.
      constructor; auto using takeWhile_all.
      pose proof (dropWhile_head alnum rest) as H.
      unfold not_alnum_head. now destruct (dropWhile alnum rest).
    + destruct (IH (length rest)) with (s := rest) as (segs & Hsegs); auto.
      { lia. }
      exists (Gap c :: segs). now constructor.
Qed.

Lemma run_unique (t t' rest rest' : jsstring) :
  Forall (fun x => alnum x = true) t ->
  Forall (fun x => alnum x = true) t' ->
  not_alnum_head rest -> not_alnum_head rest' ->
  t ++ rest = t' ++ rest' -> t = t' /\ rest = rest'.
Proof.
  intros Ht. revert t'. induction Ht as [|x t Hx Ht IH]; intros t' Ht' Hr Hr' E.
  - destruct Ht' as [|y t' Hy Ht']; simpl in *; auto.
    subst rest. simpl in Hr. congruence.
  - destruct Ht' as [|y t' Hy Ht']; simpl in *.
    + subst rest'. simpl in Hr'. congruence.
    + injection E as -> E. destruct (IH t' Ht' Hr Hr' E) as [-> ->]. auto.
Qed.

Lemma words_in_unique (s : jsstring) (segs segs' : list segment) :
  words_in s segs -> words_in s segs' -> segs = segs'.
Proof.
  intros H. revert segs'. induction H as [|c rest segs Hc H IH|c t rest segs Hc Ht Hr H IH];
    intros segs' H'.
  - inversion H'. reflexivity.
  - inversion H' as [|c' rest' segs2 Hc' H2|c' t' rest' segs2 Hc' Ht' Hr' H2]; subst.
    + f_equal. now apply IH.
    + congruence.
  - inversion H' as [|c' rest' segs2 Hc' H2 E|c' t' rest' segs2 Hc' Ht' Hr' H2 E E'].
    + congruence.
    + destruct (run_unique t' t rest' rest) as [-> ->]; auto.
      f_equal. now apply IH.
Qed.

Lemma replaceWith_words (fn : jsstring -> M jsstring) (f : jsstring -> jsstring)
  (s : jsstring) (segs : list segment) :
  (forall w, fn w = Normal (f w)) ->
  words_in s segs ->
  replaceWith re_word fn s = Normal (rewrite_words f segs).
Proof.
  intros Hf H. unfold replaceWith.
  induction H as [|c rest segs Hc H IH|c t rest segs Hc Ht Hr H IH].
  - reflexivity.
  - rewrite replaceWith_gap by exact Hc. now rewrite IH.
  - rewrite replaceWith_word by exact Hc.
    assert (E : takeWhile alnum (t ++ rest) = t /\ dropWhile alnum (t ++ rest) = rest).
    { apply run_unique; auto using takeWhile_all.
      - pose proof (dropWhile_head alnum (t ++ rest)) as Hd.
        unfold not_alnum_head. now destruct (dropWhile alnum (t ++ rest)).
      - symmetry. apply take_drop. }
    destruct E as [-> ->]. rewrite Hf, IH. reflexivity.
Qed.

Lemma capitalize_capitalized (w : jsstring) :
  capitalize w = Normal (capitalized w).
Proof.
  unfold capitalize, capitalized, Array_from.
  destruct (toLocaleLowerCase w) as [|c low]; auto.
  cbn [map length Nat.eqb element nth_error bind assign].
  rewrite join_nil. cbn [concat]. fold (Array_from low).
  now rewrite concat_Array_from.
Qed.

Lemma mapM_capitalize (ws : list jsstring) :
  mapM capitalize ws = Normal (map capitalized ws).
Proof.
  induction ws as [|w ws IH]; auto.
  cbn [mapM map]. now rewrite capitalize_capitalized, IH.
Qed.

End Words.

(** *** Tokens of the delimiter transforms *)

Section Delimiters.

Context {U : Unicode}.

Lemma split_from_skip (r : regex) (pre cur s : jsstring) :
  split_from r (length pre) cur (pre ++ s) = split_from r O cur s.
Proof. induction pre as [|c pre IH]; simpl; auto. Qed.

Lemma split_separator (cur : jsstring) (c : N) (rest : jsstring) :
  alnum c = false ->
  split_from re_separator O cur (c :: rest)
  = cur :: split_from re_separator O []
             (dropWhile (fun x => negb (alnum x)) rest).
Proof.
  intros Hc. cbn [split_from]. unfold re_separator at 1, re_plus.
  cbn [takeWhile]. rewrite Hc. cbn [negb length]. f_equal.
  rewrite <- (split_from_skip re_separator
                (takeWhile (fun x => negb (alnum x)) rest)).
  now rewrite <- take_drop.
Qed.

Lemma split_inside (cur : jsstring) (c : N) (rest : jsstring) :
  alnum c = true ->
  split_from re_separator O cur (c :: rest)
  = split_from re_separator O (cur ++ [c]) rest.
Proof.
  intros Hc. cbn [split_from]. unfold re_separator at 1, re_plus.
  cbn [takeWhile]. now rewrite Hc.
Qed.

Lemma tokens_of_gap (g s : jsstring) (ws : list jsstring) :
  Forall (fun x => alnum x = false) g ->
  tokens_of s ws -> tokens_of (g ++ s) ws.
Proof.
  intros Hg H. destruct H as [g' Hg'|g' c t rest ws Hg' Hw Hr H].
  - constructor. now apply Forall_app.
  - rewrite app_assoc. constructor; auto. now apply Forall_app.
Qed.

Lemma tokens_of_end (s post : jsstring) (ws : list jsstring) :
  Forall (fun x => alnum x = false) post ->
  tokens_of s ws -> tokens_of (s ++ post) ws.
Proof.
  intros Hp H. induction H as [g Hg|g c t rest ws Hg Hw Hr H IH].
  - constructor. now apply Forall_app.
  - replace ((g ++ (c :: t) ++ rest) ++ post)
      with (g ++ (c :: t) ++ (rest ++ post))
      by now rewrite <- !app_assoc.
    constructor; auto.
    destruct rest as [|x rest]; [|exact Hr].
    destruct Hp; simpl; auto.
Qed.

Lemma tokens_of_word (c : N) (t rest : jsstring) (ws : list jsstring) :
  Forall (fun x => alnum x = true) (c :: t) ->
  not_alnum_head rest ->
  tokens_of rest ws -> tokens_of ((c :: t) ++ rest) ((c :: t) :: ws).
Proof. intros Hw Hr H. now apply (tk_token [] c t rest ws). Qed.

Lemma split_tokens (n : nat) :
  forall s cur,
    (length s <= n)%nat ->
    Forall (fun x => alnum x = true) cur ->
    tokens_of (cur ++ s) (filter_Boolean (split_from re_separator O cur s)).
Proof.
  induction n as [|n IH]; intros s cur Hn Hcur.
  - destruct s; [|simpl in Hn; lia].
    destruct cur as [|c t]; cbn [split_from filter_Boolean filter is_empty negb].
    + constructor. constructor.
    + apply tokens_of_word; simpl; auto. constructor. constructor.
  - destruct s as [|c rest].
    { apply IH; auto. simpl. lia. }
    simpl in Hn. destruct (alnum c) eqn:Hc.
    + rewrite split_inside by exact Hc.
      replace (cur ++ c :: rest) with ((cur ++ [c]) ++ rest)
        by now rewrite <- app_assoc.
      apply IH; [lia|]. apply Forall_app. auto.
    + rewrite split_separator by exact Hc.
      set (p := fun x => negb (alnum x)).
      assert (Htail : tokens_of (c :: rest)
                        (filter_Boolean (split_from re_separator O [] (dropWhile p rest)))).
      { rewrite (take_drop p rest) at 1.
        apply (tokens_of_gap (c :: takeWhile p rest)).
        - constructor; auto.
          eapply Forall_impl; [|apply takeWhile_all].
          intros x Hx. now apply negb_true_iff in Hx.
        - apply (IH (dropWhile p rest) []); auto.
          pose proof (dropWhile_length p rest). lia. }
      destruct cur as [|c0 t0].
      * exact Htail.
      * apply tokens_of_word; auto.
Qed.

Lemma splitWords_tokens (text : jsstring) :
  tokens_of (trim text) (splitWords text).
Proof. apply (split_tokens (length (trim text)) (trim text) []); auto. Qed.

Lemma splitWords_tokens_of_text (text : jsstring) :
  white_space_separates -> tokens_of text (splitWords text).
Proof.
  intros Hws.
  destruct (trim_is_trim_of text) as (pre & post & E & Hpre & Hpost & _).
  rewrite E at 1. rewrite app_assoc.
  apply tokens_of_end; [eapply Forall_impl; [|exact Hpost]; auto|].
  apply tokens_of_gap; [eapply Forall_impl; [|exact Hpre]; auto|].
  apply splitWords_tokens.
Qed.

Lemma gap_unique (g g' : jsstring) (c c' : N) (x x' : jsstring) :
  Forall (fun y => alnum y = false) g ->
  Forall (fun y => alnum y = false) g' ->
  alnum c = true -> alnum c' = true ->
  g ++ c :: x = g' ++ c' :: x' -> g = g' /\ c :: x = c' :: x'.
Proof.
  intros Hg. revert g'. induction Hg as [|y g Hy Hg IH]; intros g' Hg' Hc Hc' E.
  - destruct Hg' as [|y' g' Hy' Hg']; simpl in *; auto.
    injection E as -> _. congruence.
  - destruct Hg' as [|y' g' Hy' Hg']; simpl in *.
    + injection E as -> _. congruence.
    + injection E as -> E. destruct (IH g' Hg' Hc Hc' E) as [-> ?]. auto.
Qed.

Lemma tokens_of_unique (s : jsstring) (ws ws' : list jsstring) :
  tokens_of s ws -> tokens_of s ws' -> ws = ws'.
Proof.
  intros H. revert ws'.
  induction H as [g Hg|g c t rest ws Hg Hw Hr H IH]; intros ws' H'.
  - inversion H' as [g' Hg' E|g' c' t' rest' ws2 Hg' Hw' Hr' H2 E E']; auto.
    subst g. apply Forall_app in Hg as [_ Hg].
    inversion Hg; subst. inversion Hw'; subst. congruence.
  - inversion H' as [g' Hg' E|g' c' t' rest' ws2 Hg' Hw' Hr' H2 E E'].
    + subst g'. apply Forall_app in Hg' as [_ Hg'].
      inversion Hg'; subst. inversion Hw; subst. congruence.
    + inversion Hw as [|? ? Hc Ht]; inversion Hw' as [|? ? Hc' Ht']; subst.
      destruct (gap_unique g' g c' c (t' ++ rest') (t ++ rest)) as [-> E2]; auto.
      injection E2 as -> E2.
      destruct (run_unique t' t rest' rest) as [-> ->]; auto.
      f_equal. now apply IH.
Qed.

End Delimiters.

Lemma basic_latin_white_space : @white_space_separates BasicLatin.tables.
Proof.
  intros c. unfold isWhiteSpace, alnum. simpl.
  rewrite !orb_true_iff, !andb_true_iff, !N.leb_le, !N.eqb_eq.
  intros H. apply orb_false_iff; split; apply not_true_iff_false;
    rewrite ?orb_true_iff, !andb_true_iff, !N.leb_le; lia.
Qed.

(** C6.  With either value of the flag, the keys snake, kebab and dot
    give the tokens of the input, each in lower case, joined by [_], [-]
    and [.]; the tokens are the longest runs of letters and digits, what
    lies between them being dropped.  On the text `Hello, world!' these
    are [hello_world], [hello-world] and [hello.world]. *)
Theorem delimited_output :
  (forall U : Unicode,
      white_space_separates ->
      forall text preserve,
      exists ws,
        tokens_of text ws
        /\ computeOutput text preserve (lit "snake")
           = Normal (join (lit "_") (map toLocaleLowerCase ws))
        /\ computeOutput text preserve (lit "kebab")
           = Normal (join (lit "-") (map toLocaleLowerCase ws))
        /\ computeOutput text preserve (lit "dot")
           = Normal (join (lit ".") (map toLocaleLowerCase ws)))
  /\ (forall preserve,
        @computeOutput BasicLatin.tables (lit "Hello, world!") preserve (lit "snake")
        = Normal (lit "hello_world")
        /\ @computeOutput BasicLatin.tables (lit "Hello, world!") preserve (lit "kebab")
           = Normal (lit "hello-world")
        /\ @computeOutput BasicLatin.tables (lit "Hello, world!") preserve (lit "dot")
           = Normal (lit "hello.world")).
Proof.
  split.
  - intros U Hws text preserve. exists (splitWords text).
    split; [now apply splitWords_tokens_of_text|].
    repeat split; reflexivity.
  - intros preserve. repeat split; vm_compute; reflexivity.
Qed.

(** The tokens of `Hello, world!' on the Basic Latin tables. *)
Lemma delimited_output_witness :
  @white_space_separates BasicLatin.tables
  /\ exists ws,
       @tokens_of BasicLatin.tables (lit "Hello, world!") ws
       /\ @computeOutput BasicLatin.tables (lit "Hello, world!") true (lit "snake")
          = Normal (join (lit "_") (map (@toLocaleLowerCase BasicLatin.tables) ws))
       /\ @computeOutput BasicLatin.tables (lit "Hello, world!") true (lit "kebab")
          = Normal (join (lit "-") (map (@toLocaleLowerCase BasicLatin.tables) ws))
       /\ @computeOutput BasicLatin.tables (lit "Hello, world!") true (lit "dot")
          = Normal (join (lit ".") (map (@toLocaleLowerCase BasicLatin.tables) ws)).
Proof.
  split; [exact basic_latin_white_space|].
  exact (proj1 delimited_output BasicLatin.tables basic_latin_white_space
           (lit "Hello, world!") true).
Defined.

(** *** The unit of the transforms *)

Section Units.

Context {U : Unicode}.

(** C5, amended.  With the flag, the keys upper and lower replace each
    word of the input by its upper case or lower case image and leave
    every other character where it is; a word is a letter with the longest
    run of letters and digits behind it, wherever the letter stands, so
    also right behind a digit, and the input reads in one way only as
    words and gaps.  Without the flag they return the image of the whole
    trimmed input. *)
Theorem upper_lower_output (text : jsstring) :
  exists segs,
    words_in text segs
    /\ (forall segs', words_in text segs' -> segs' = segs)
    /\ computeOutput text true (lit "upper")
       = Normal (rewrite_words toLocaleUpperCase segs)
    /\ computeOutput text true (lit "lower")
       = Normal (rewrite_words toLocaleLowerCase segs)
    /\ computeOutput text false (lit "upper")
       = Normal (toLocaleUpperCase (trim text))
    /\ computeOutput text false (lit "lower")
       = Normal (toLocaleLowerCase (trim text)).
Proof.
  destruct (words_in_exists text) as (segs & H). exists segs.
  split; [exact H|]. split.
  { intros segs' H'. now apply (words_in_unique text). }
  repeat split.
  - apply replaceWith_words; auto.
  - apply replaceWith_words; auto.
Qed.

(** C7, amended.  The transforms that rewrite in place (upper and lower
    with the flag, through [preserveWordTransform], and title) work on
    the words of the text: a letter with the longest run of letters and
    digits behind it, so that no word begins with a digit, though one may
    stand right behind a digit.  The delimiter transforms (camel, pascal,
    snake, kebab, dot, space) work on the tokens of [splitWords], which
    are the longest runs of letters and digits of the trimmed text,
    whatever their first character. *)
Theorem units_of_transformation (text : jsstring) :
  (exists segs,
      words_in text segs
      /\ (forall f, preserveWordTransform text (fun w => ret (f w))
                    = Normal (rewrite_words f segs))
      /\ toTitleCase text = Normal (rewrite_words capitalized segs)
      /\ Forall (fun sg => match sg with
                           | Word w => exists c t, w = c :: t /\ isL c = true
                           | Gap _ => True
                           end) segs)
  /\ (exists ws,
        tokens_of (trim text) ws
        /\ toCamelCase text
           = Normal match ws with
                    | [] => []
                    | w :: rest =>
                        toLocaleLowerCase w ++ concat (map capitalized rest)
                    end
        /\ toPascalCase text = Normal (concat (map capitalized ws))
        /\ (forall d, toDelimited text d = join d (map toLocaleLowerCase ws))
        /\ toSpaceCase text = join (lit " ") ws).
Proof.
  split.
  - destruct (words_in_exists text) as (segs & H). exists segs.
    split; [exact H|]. repeat split.
    + intros f. apply replaceWith_words; auto.
    + apply replaceWith_words; auto. apply capitalize_capitalized.
    + induction H; constructor; eauto.
  - exists (splitWords text). split; [apply splitWords_tokens|].
    repeat split.
    + unfold toCamelCase. destruct (splitWords text) as [|w ws]; auto.
      cbn [length Nat.eqb element nth_error bind skipn].
      rewrite mapM_capitalize. cbn [bind]. now rewrite join_nil.
    + unfold toPascalCase. rewrite mapM_capitalize. cbn [bind].
      now rewrite join_nil.
Qed.

End Units.

(** C5 as stated fails: in the text `1abc' the one longest run of
    letters and digits is the text itself, which begins with a digit, and
    yet upper with the flag rewrites the letters of it. *)
Lemma word_behind_digit :
  @tokens_of BasicLatin.tables (lit "1abc") [lit "1abc"]
  /\ @isL BasicLatin.tables 49 = false
  /\ @computeOutput BasicLatin.tables (lit "1abc") true (lit "upper")
     = Normal (lit "1ABC")
  /\ @computeOutput BasicLatin.tables (lit "1abc") true (lit "upper")
     <> Normal (lit "1abc").
Proof.
  split; [|repeat split; discriminate].
  change (lit "1abc") with ([] ++ (49 :: lit "abc") ++ []).
  constructor; repeat constructor.
Qed.

(** C7 as stated fails: on the text `2nd place' the key snake joins the
    tokens [2nd] and [place], and the first begins with a digit. *)
Lemma token_begins_with_digit :
  @splitWords BasicLatin.tables (lit "2nd place") = [lit "2nd"; lit "place"]
  /\ @computeOutput BasicLatin.tables (lit "2nd place") true (lit "snake")
     = Normal (lit "2nd_place")
  /\ ~ (forall w, In w (@splitWords BasicLatin.tables (lit "2nd place")) ->
                  exists c t, w = c :: t /\ @isL BasicLatin.tables c = true).
Proof.
  split; [reflexivity|]. split; [reflexivity|].
  intros H. destruct (H (lit "2nd")) as (c & t & E & Hc).
  - vm_compute. auto.
  - injection E as <- _. vm_compute in Hc. discriminate.
Qed.

(** *** Applying upper twice *)

Section Idempotence.

Context {U : Unicode}.

Variable up : N -> jsstring.

Lemma scan_word (t rest : jsstring) :
  Forall (fun x => alnum x = true) t ->
  not_alnum_head rest ->
  scan up true (t ++ rest) = flat_map up t ++ scan up false rest.
Proof.
  intros Ht Hr. induction Ht as [|x t Hx Ht IH]; simpl.
  - destruct rest as [|y rest]; simpl in *; auto.
    rewrite Hr. now rewrite (alnum_false_isL y Hr).
  - rewrite Hx, IH. now rewrite app_assoc.
Qed.

Lemma rewrite_words_scan (s : jsstring) (segs : list segment) :
  words_in s segs -> rewrite_words (flat_map up) segs = scan up false s.
Proof.
  induction 1 as [|c rest segs Hc H IH|c t rest segs Hc Ht Hr H IH]; simpl.
  - reflexivity.
  - now rewrite Hc, IH.
  - rewrite Hc, scan_word by assumption.
    now rewrite IH, <- app_assoc.
Qed.

Hypothesis up_fixed : forall c c', In c' (up c) -> up c' = [c'].

Lemma scan_fixed (chunk : jsstring) :
  (forall c', In c' chunk -> up c' = [c']) ->
  forall st rest, exists st', scan up st (chunk ++ rest) = chunk ++ scan up st' rest.
Proof.
  induction chunk as [|c chunk IH]; intros Hc st rest; simpl.
  - now exists st.
  - assert (Hc' : forall c', In c' chunk -> up c' = [c']) by (intros; apply Hc; simpl; auto).
    destruct (if st then alnum c else isL c).
    + rewrite (Hc c) by (simpl; auto). simpl.
      destruct (IH Hc' true rest) as (st' & ->). eauto.
    + destruct (IH Hc' false rest) as (st' & ->). eauto.
Qed.

Lemma scan_scan (s : jsstring) :
  forall st st2, (st2 = true -> st = true) ->
                 scan up st2 (scan up st s) = scan up st s.
Proof.
  induction s as [|c s IH]; intros st st2 Hst; simpl; auto.
  destruct (if st then alnum c else isL c) eqn:E.
  - destruct (scan_fixed (up c) (up_fixed c) st2 (scan up true s)) as (st' & ->).
    f_equal. now apply IH.
  - simpl.
    assert (E2 : (if st2 then alnum c else isL c) = false).
    { destruct st2.
      - now rewrite Hst in E.
      - destruct st; auto using alnum_false_isL. }
    rewrite E2. f_equal. apply IH. discriminate.
Qed.

Hypothesis upper_pointwise : forall w, toLocaleUpperCase w = flat_map up w.

Lemma upper_scan (x : jsstring) :
  computeOutput x true (lit "upper") = Normal (scan up false x).
Proof.
  destruct (words_in_exists x) as (segs & H).
  rewrite <- (rewrite_words_scan x segs H).
  change (computeOutput x true (lit "upper"))
    with (replaceWith re_word (fun w => ret (toLocaleUpperCase w)) x).
  apply replaceWith_words; auto. intros w. now rewrite upper_pointwise.
Qed.

End Idempotence.

(** C9.  Upper with the flag, applied to its own output, gives this
    output again.  The case mapping of the host is taken to work code
    point by code point, through a mapping [up] whose images are made of
    code points that [up] leaves alone, as the upper case mapping of
    Unicode does. *)
Theorem upper_idempotent (U : Unicode) (up : N -> jsstring) :
  (forall w, toLocaleUpperCase w = flat_map up w) ->
  (forall c c', In c' (up c) -> up c' = [c']) ->
  forall x,
    (y <- computeOutput x true (lit "upper") ;;
     computeOutput y true (lit "upper"))
    = computeOutput x true (lit "upper").
Proof.
  intros Hup Hfix x.
  rewrite (upper_scan up Hup x). cbn [bind].
  rewrite (upper_scan up Hup). f_equal.
  apply scan_scan; auto.
Qed.

Lemma basic_latin_upper_pointwise (w : jsstring) :
  @toLocaleUpperCase BasicLatin.tables w
  = flat_map (fun c => [BasicLatin.upper1 c]) w.
Proof. simpl. induction w as [|c w IH]; simpl; congruence. Qed.

Lemma basic_latin_upper_fixed (c c' : N) :
  In c' [BasicLatin.upper1 c] -> [BasicLatin.upper1 c'] = [c'].
Proof.
  intros [<-|[]]. f_equal. unfold BasicLatin.upper1.
  destruct ((97 <=? c) && (c <=? 122)) eqn:E; [|now rewrite E].
  apply andb_true_iff in E as [E1 E2]. apply N.leb_le in E1, E2.
  destruct (N.leb_spec 97 (c - 32)); simpl; auto. lia.
Qed.

(** The Basic Latin tables map code point by code point, and a capital
    stays as it is. *)
Lemma upper_idempotent_witness :
  (forall w, @toLocaleUpperCase BasicLatin.tables w
             = flat_map (fun c => [BasicLatin.upper1 c]) w)
  /\ (forall c c', In c' [BasicLatin.upper1 c] -> [BasicLatin.upper1 c'] = [c'])
  /\ (y <- @computeOutput BasicLatin.tables (lit "Hi, Bob!") true (lit "upper") ;;
      @computeOutput BasicLatin.tables y true (lit "upper"))
     = @computeOutput BasicLatin.tables (lit "Hi, Bob!") true (lit "upper").
Proof.
  split; [exact basic_latin_upper_pointwise|].
  split; [exact basic_latin_upper_fixed|].
  exact (upper_idempotent BasicLatin.tables (fun c => [BasicLatin.upper1 c])
           basic_latin_upper_pointwise basic_latin_upper_fixed (lit "Hi, Bob!")).
Defined.

(** *** Escaping *)

Lemma replaceAll_char (c : N) (rep s : jsstring) :
  replaceAll (re_lit [c]) rep s
  = flat_map (fun x => if x =? c then rep else [x]) s.
Proof.
  unfold replaceAll. induction s as [|x s IH]; auto.
  cbn [replace_from flat_map]. unfold re_lit at 1. cbn [starts_with length].
  rewrite andb_true_r, (N.eqb_sym c x).
  destruct (x =? c); rewrite IH; reflexivity.
Qed.

Lemma entity_steps (x : N) :
  flat_map (fun y => if y =? 39 then lit "&#039;" else [y])
    (flat_map (fun y => if y =? 34 then lit "&quot;" else [y])
       (flat_map (fun y => if y =? 62 then lit "&gt;" else [y])
          (flat_map (fun y => if y =? 60 then lit "&lt;" else [y])
             (if x =? 38 then lit "&amp;" else [x]))))
  = entity x.
Proof.
  unfold entity.
  destruct (x =? 38) eqn:E1; [reflexivity|].
  cbn [flat_map app]. destruct (x =? 60) eqn:E2; [reflexivity|].
  cbn [flat_map app]. destruct (x =? 62) eqn:E3; [reflexivity|].
  cbn [flat_map app]. destruct (x =? 34) eqn:E4; [reflexivity|].
  cbn [flat_map app]. destruct (x =? 39) eqn:E5; reflexivity.
Qed.

Lemma escapeHtml_entities (v : jsstring) : escapeHtml v = flat_map entity v.
Proof.
  unfold escapeHtml. rewrite or_else_nil.
  change (lit "'") with [39]. change (tpl "`") with [34].
  change (lit ">") with [62]. change (lit "<") with [60].
  change (lit "&") with [38].
  rewrite !replaceAll_char.
  induction v as [|x v IH]; auto.
  cbn [flat_map]. rewrite !flat_map_app, IH. f_equal. apply entity_steps.
Qed.

Lemma legal_entities (v : jsstring) :
  replaceAll (re_lit [10]) (lit "<br/>") (escapeHtml v) = flat_map entity_br v.
Proof.
  rewrite replaceAll_char, escapeHtml_entities.
  induction v as [|x v IH]; auto.
  cbn [flat_map]. rewrite flat_map_app, IH. f_equal.
  unfold entity_br, entity.
  destruct (x =? 10) eqn:E0.
  { apply N.eqb_eq in E0. subst x. reflexivity. }
  destruct (x =? 38); [reflexivity|]. destruct (x =? 60); [reflexivity|].
  destruct (x =? 62); [reflexivity|]. destruct (x =? 34); [reflexivity|].
  destruct (x =? 39); [reflexivity|].
  cbn [flat_map app]. now rewrite E0.
Qed.

Lemma entity_no_delimiter (x c : N) : In c (entity x) -> delimiter c = false.
Proof.
  unfold entity.
  destruct (x =? 38) eqn:E1; [simpl; intuition (subst; reflexivity)|].
  destruct (x =? 60) eqn:E2; [simpl; intuition (subst; reflexivity)|].
  destruct (x =? 62) eqn:E3; [simpl; intuition (subst; reflexivity)|].
  destruct (x =? 34) eqn:E4; [simpl; intuition (subst; reflexivity)|].
  destruct (x =? 39) eqn:E5; [simpl; intuition (subst; reflexivity)|].
  intros [<-|[]]. unfold delimiter. now rewrite E2, E3, E4, E5.
Qed.

Lemma escapeHtml_no_delimiter (v : jsstring) (c : N) :
  In c (escapeHtml v) -> delimiter c = false.
Proof.
  rewrite escapeHtml_entities. intros H.
  apply in_flat_map in H as (x & _ & H). now apply (entity_no_delimiter x).
Qed.

(** *** The markup and the values of the signature *)

Section Skeleton.

Variable data : FormData.

Lemma fill_when (b : bool) (items : list item) :
  flat_map (fill data) (when b items)
  = if b then flat_map (fill data) items else [].
Proof. now destruct b. Qed.

Lemma row_fill (th : ThemeName) (inner : list item) :
  is_empty (flat_map (fill data) inner) = false ->
  row th (flat_map (fill data) inner)
  = flat_map (fill data) (rowItems th inner).
Proof.
  intros H. unfold row, rowItems. rewrite H, !flat_map_app.
  generalize (flat_map (fill data) inner) as html. intros html.
  destruct th; reflexivity.
Qed.

Lemma row_when (th : ThemeName) (s : slot) (html : jsstring) (inner : list item) :
  html = (if is_empty (slot_value data s) then []
          else flat_map (fill data) inner) ->
  is_empty (flat_map (fill data) inner) = false ->
  row th html = flat_map (fill data) (when (present data s) (rowItems th inner)).
Proof.
  intros -> H. unfold present.
  destruct (is_empty (slot_value data s)); [reflexivity|].
  now apply row_fill.
Qed.

Lemma officeHtml_fill (th : ThemeName) :
  row th (officeHtml th (slot_value data s_officePhone))
  = flat_map (fill data) (when (present data s_officePhone) (rowItems th (officeItems th))).
Proof.
  apply row_when; unfold officeHtml;
    destruct (is_empty (slot_value data s_officePhone)); destruct th; reflexivity.
Qed.

Lemma mobileHtml_fill (th : ThemeName) :
  row th (mobileHtml th (slot_value data s_mobilePhone))
  = flat_map (fill data) (when (present data s_mobilePhone) (rowItems th (mobileItems th))).
Proof.
  apply row_when; unfold mobileHtml;
    destruct (is_empty (slot_value data s_mobilePhone)); destruct th; reflexivity.
Qed.

Lemma emailHtml_fill (th : ThemeName) :
  row th (emailHtml th (slot_value data s_email))
  = flat_map (fill data) (when (present data s_email) (rowItems th (emailItems th))).
Proof.
  apply row_when; unfold emailHtml;
    destruct (is_empty (slot_value data s_email)); destruct th; reflexivity.
Qed.

Lemma webHtml_fill (th : ThemeName) :
  row th (webHtml th (slot_value data s_website))
  = flat_map (fill data) (when (present data s_website) (rowItems th (webItems th))).
Proof.
  apply row_when; unfold webHtml;
    destruct (is_empty (slot_value data s_website)); destruct th; reflexivity.
Qed.

Lemma addressHtml_fill (th : ThemeName) :
  row th (addressHtml th (slot_value data s_address))
  = flat_map (fill data) (when (present data s_address) (rowItems th (addressItems th))).
Proof.
  apply row_when; unfold addressHtml;
    destruct (is_empty (slot_value data s_address)); destruct th; reflexivity.
Qed.

Lemma nameBlock_fill (th : ThemeName) :
  nameBlock th (slot_value data s_fullName)
  = flat_map (fill data) (when (present data s_fullName) (nameItems th)).
Proof.
  unfold present, nameBlock.
  destruct (is_empty (slot_value data s_fullName)); destruct th; reflexivity.
Qed.

Lemma jobBlock_fill (th : ThemeName) :
  jobBlock th (slot_value data s_jobLine)
  = flat_map (fill data) (when (present data s_jobLine) (jobItems th)).
Proof.
  unfold present, jobBlock.
  destruct (is_empty (slot_value data s_jobLine)); destruct th; reflexivity.
Qed.

Lemma companyBlock_fill (th : ThemeName) :
  companyBlock th (slot_value data s_company)
  = flat_map (fill data) (when (present data s_company) (companyItems th)).
Proof.
  unfold present, companyBlock.
  destruct (is_empty (slot_value data s_company)); destruct th; reflexivity.
Qed.

Lemma legalBlock_fill (th : ThemeName) :
  legalBlock th (slot_value data s_legal)
  = flat_map (fill data) (when (present data s_legal) (legalItems th)).
Proof.
  unfold present, legalBlock.
  destruct (is_empty (slot_value data s_legal)); destruct th; reflexivity.
Qed.

Lemma headerBlock_fill (th : ThemeName) :
  headerBlock th (slot_value data s_logoSrc) (slot_value data s_fullName)
    (slot_value data s_jobLine) (slot_value data s_company)
  = flat_map (fill data) (headerItems th (present data)).
Proof.
  unfold headerBlock, headerItems.
  rewrite nameBlock_fill, jobBlock_fill, companyBlock_fill.
  change (present data s_logoSrc) with (negb (is_empty (slot_value data s_logoSrc))).
  destruct (negb (is_empty (slot_value data s_logoSrc)));
    rewrite !flat_map_app; cbn [flat_map fill]; rewrite <- ?app_assoc;
    reflexivity.
Qed.

Lemma join_map_filter {A} (f : A -> jsstring) (q : A -> bool) (l : list A) :
  join [] (map f (filter q l)) = flat_map (fun x => if q x then f x else []) l.
Proof.
  rewrite join_nil. induction l as [|x l IH]; simpl; auto.
  destruct (q x); simpl; congruence.
Qed.

Lemma nonempty_filter {A} (q : A -> bool) (l : list A) :
  (0 <? length (filter q l))%nat = existsb q l.
Proof.
  induction l as [|x l IH]; simpl; auto. destruct (q x); simpl; auto.
Qed.

Lemma socialCell_fill (th : ThemeName) (k : SocialKey) :
  socialCell (icons_of th) (social_of data k)
  = flat_map (fill data) (cellItems th k).
Proof. reflexivity. Qed.

Lemma socialCells_fill (th : ThemeName) (keys : list SocialKey) :
  flat_map (fun s => if negb (is_empty (url s))
                     then socialCell (icons_of th) s else [])
    (map (social_of data) keys)
  = flat_map (fill data)
      (flat_map (fun k => when (present data (s_url k)) (cellItems th k)) keys).
Proof.
  induction keys as [|k keys IH]; auto.
  cbn [map flat_map]. rewrite flat_map_app, fill_when, IH, socialCell_fill.
  reflexivity.
Qed.

Lemma socialsRow_fill (th : ThemeName) :
  socialsRow (icons_of th)
    (filter (fun s => negb (is_empty (url s))) (map (social_of data) social_keys))
  = flat_map (fill data) (socialItems th (present data)).
Proof.
  unfold socialsRow, socialItems.
  rewrite nonempty_filter, join_map_filter, socialCells_fill.
  replace (existsb (fun s => negb (is_empty (url s))) (map (social_of data) social_keys))
    with (existsb (fun k => present data (s_url k)) social_keys) by reflexivity.
  destruct (existsb (fun k => present data (s_url k)) social_keys); [|reflexivity].
  unfold when. rewrite !flat_map_app.
  generalize (flat_map (fill data)
                (flat_map (fun k => if present data (s_url k) then cellItems th k else [])
                   social_keys)) as cells.
  intros cells. reflexivity.
Qed.

End Skeleton.

Lemma SOCIAL_icons (th : ThemeName) :
  match th with dark => SOCIAL_DARK | light => SOCIAL_LIGHT end
  = Normal (icons_of th).
Proof. destruct th; vm_compute; reflexivity. Qed.

Lemma ends_well_app (a b : jsstring) : ends_well b -> ends_well (a ++ b).
Proof.
  unfold ends_well. intros H. destruct b as [|c b]; [discriminate H|].
  induction a as [|x a IH]; auto.
  simpl. destruct (a ++ c :: b) eqn:E; auto.
  destruct a; discriminate E.
Qed.

Lemma ends_well_rev (l : jsstring) : ends_well l -> no_ws_head (rev l).
Proof.
  unfold ends_well. intros H. destruct l as [|c l]; [discriminate H|].
  rewrite (app_removelast_last 32 (l := c :: l)) by discriminate.
  rewrite rev_app_distr. exact H.
Qed.

Lemma frame_trim (v : jsstring) :
  no_ws_head v -> ends_well v -> trim ([10] ++ v ++ [10]) = v.
Proof.
  intros Hh Hl. symmetry. apply is_trim_of_unique.
  exists [10], [10]. repeat split; auto using ends_well_rev.
Qed.

Lemma build_skeleton (data : FormData) (opts : BuildOpts) :
  buildSignatureHTML data opts
  = Normal (flat_map (fill data) (skeleton (theme_of opts) (present data))).
Proof.
  unfold buildSignatureHTML. fold (theme_of opts).
  generalize (theme_of opts) as th. intros th.
  rewrite (SOCIAL_icons th). cbv beta iota zeta delta [bind ret]. f_equal.
  rewrite <- (frame_trim (flat_map (fill data) (skeleton th (present data)))).
  - f_equal. unfold skeleton. rewrite !flat_map_app.
    rewrite <- headerBlock_fill, <- officeHtml_fill, <- mobileHtml_fill,
      <- emailHtml_fill, <- webHtml_fill, <- addressHtml_fill,
      <- socialsRow_fill, <- legalBlock_fill.
    cbn [flat_map fill]. rewrite <- ?app_assoc. reflexivity.
  - reflexivity.
  - unfold skeleton. rewrite !flat_map_app.
    do 16 apply ends_well_app. reflexivity.
Qed.

(** C1.  The output of [buildSignatureHTML] is markup that only depends
    on the theme and on which values are there, with between the markup
    the values that come from the record, each of them through
    [escapeHtml] (the legal text with its line feeds then turned into line
    breaks); this holds of the values used as [href] and [src] as of the
    others.  [escapeHtml] replaces [&], [<], [>], the double quote and the
    apostrophe by [&amp;], [&lt;], [&gt;], [&quot;] and [&#039;], the
    ampersand first, so that what it returns holds none of [<], [>], the
    double quote and the apostrophe, and holds an ampersand only at the
    start of one of these five references. *)
Theorem escaped_interpolation :
  (exists layout : ThemeName -> (slot -> bool) -> list item,
      forall data opts,
        buildSignatureHTML data opts
        = Normal (flat_map (fill data)
                    (layout (theme_of opts) (present data))))
  /\ (forall v, escapeHtml v = flat_map entity v)
  /\ (forall v, replaceAll (re_lit [10]) (lit "<br/>") (escapeHtml v)
                = flat_map entity_br v)
  /\ (forall v, forallb (fun c => negb (delimiter c)) (escapeHtml v) = true).
Proof.
  split; [exists skeleton; apply build_skeleton|].
  split; [apply escapeHtml_entities|].
  split; [apply legal_entities|].
  intros v. apply forallb_forall. intros c H.
  now rewrite (escapeHtml_no_delimiter v c H).
Qed.

(* ===================================================================== *)
(** ** Further properties of the signature builder *)
(* ===================================================================== *)

(** *** [escapeHtml] *)

(** X1.  Escaping a text piece by piece is escaping it as a whole:
    [escapeHtml] of a concatenation is the concatenation of the two
    escaped parts. *)
Theorem escapeHtml_app (a b : jsstring) :
  escapeHtml (a ++ b) = escapeHtml a ++ escapeHtml b.
Proof. rewrite !escapeHtml_entities. apply flat_map_app. Qed.

Lemma entity_cases (x : N) :
  (special x = true /\ exists rest, entity x = 38 :: rest /\ rest <> [])
  \/ (special x = false /\ entity x = [x]).
Proof.
  unfold special, delimiter, entity.
  destruct (x =? 38) eqn:E1; [left; split; eauto; eexists; split; [reflexivity|discriminate]|].
  destruct (x =? 60) eqn:E2; [left; split; eauto; eexists; split; [reflexivity|discriminate]|].
  destruct (x =? 62) eqn:E3; [left; split; eauto; eexists; split; [reflexivity|discriminate]|].
  destruct (x =? 34) eqn:E4; [left; split; eauto; eexists; split; [reflexivity|discriminate]|].
  destruct (x =? 39) eqn:E5; [left; split; eauto; eexists; split; [reflexivity|discriminate]|].
  right. auto.
Qed.

Lemma entities_length (s : jsstring) :
  (length s <= length (flat_map entity s))%nat.
Proof.
  induction s as [|x s IH]; simpl; auto.
  rewrite length_app.
  destruct (entity_cases x) as [(_ & rest & -> & _)|(_ & ->)]; simpl; lia.
Qed.

(** X2.  [escapeHtml] returns its argument as it is exactly when the
    argument holds none of the five characters [&], [<], [>], the double
    quote and the apostrophe. *)
Theorem escapeHtml_fixed (s : jsstring) :
  escapeHtml s = s <-> forallb (fun c => negb (special c)) s = true.
Proof.
  rewrite escapeHtml_entities. induction s as [|x s IH]; simpl.
  - split; auto.
  - rewrite andb_true_iff, <- IH.
    destruct (entity_cases x) as [(Hx & rest & -> & Hr)|(Hx & ->)]; rewrite Hx; simpl.
    + split; [|intros [H _]; discriminate H].
      intros H. exfalso. injection H as _ H.
      pose proof (entities_length s) as L.
      apply (f_equal (@length N)) in H. rewrite length_app in H.
      destruct rest; [congruence|]. simpl in H. lia.
    + split.
      * intros H. injection H as H. auto.
      * intros [_ H]. now rewrite H.
Qed.

Lemma entity_decode (x y : N) (u v : jsstring) :
  entity x ++ u = entity y ++ v -> x = y /\ u = v.
Proof.
  unfold entity.
  destruct (x =? 38) eqn:X1; destruct (y =? 38) eqn:Y1;
    try apply N.eqb_eq in X1; try apply N.eqb_eq in Y1; subst;
    [intros H; injection H; auto| | |].
  - destruct (y =? 60) eqn:Y2; [discriminate|].
    destruct (y =? 62) eqn:Y3; [discriminate|].
    destruct (y =? 34) eqn:Y4; [discriminate|].
    destruct (y =? 39) eqn:Y5; [discriminate|].
    intros H. injection H as H _. subst y. discriminate Y1.
  - destruct (x =? 60) eqn:X2; [discriminate|].
    destruct (x =? 62) eqn:X3; [discriminate|].
    destruct (x =? 34) eqn:X4; [discriminate|].
    destruct (x =? 39) eqn:X5; [discriminate|].
    intros H. injection H as H _. subst x. discriminate X1.
  - destruct (x =? 60) eqn:X2; destruct (y =? 60) eqn:Y2;
      try apply N.eqb_eq in X2; try apply N.eqb_eq in Y2; subst;
      [intros H; injection H; auto| | |].
    + destruct (y =? 62) eqn:Y3; [discriminate|].
      destruct (y =? 34) eqn:Y4; [discriminate|].
      destruct (y =? 39) eqn:Y5; [discriminate|].
      intros H. injection H as H _. subst y. discriminate Y1.
    + destruct (x =? 62) eqn:X3; [discriminate|].
      destruct (x =? 34) eqn:X4; [discriminate|].
      destruct (x =? 39) eqn:X5; [discriminate|].
      intros H. injection H as H _. subst x. discriminate X1.
    + destruct (x =? 62) eqn:X3; destruct (y =? 62) eqn:Y3;
        try apply N.eqb_eq in X3; try apply N.eqb_eq in Y3; subst;
        [intros H; injection H; auto| | |].
      * destruct (y =? 34) eqn:Y4; [discriminate|].
        destruct (y =? 39) eqn:Y5; [discriminate|].
        intros H. injection H as H _. subst y. discriminate Y1.
      * destruct (x =? 34) eqn:X4; [discriminate|].
        destruct (x =? 39) eqn:X5; [discriminate|].
        intros H. injection H as H _. subst x. discriminate X1.
      * destruct (x =? 34) eqn:X4; destruct (y =? 34) eqn:Y4;
          try apply N.eqb_eq in X4; try apply N.eqb_eq in Y4; subst;
          [intros H; injection H; auto| | |].
        -- destruct (y =? 39) eqn:Y5; [discriminate|].
           intros H. injection H as H _. subst y. discriminate Y1.
        -- destruct (x =? 39) eqn:X5; [discriminate|].
           intros H. injection H as H _. subst x. discriminate X1.
        -- destruct (x =? 39) eqn:X5; destruct (y =? 39) eqn:Y5;
             try apply N.eqb_eq in X5; try apply N.eqb_eq in Y5; subst.
           ++ intros H; injection H; auto.
           ++ intros H. injection H as H _. subst y. discriminate Y1.
           ++ intros H. injection H as H _. subst x. discriminate X1.
           ++ intros H. injection H as H1 H2. auto.
Qed.

(** X3.  [escapeHtml] loses nothing: two texts with the same escaped
    text are the same text. *)
Theorem escapeHtml_injective (a b : jsstring) :
  escapeHtml a = escapeHtml b -> a = b.
Proof.
  rewrite !escapeHtml_entities. revert b.
  induction a as [|x a IH]; intros [|y b]; simpl; auto.
  - intros H. destruct (entity_cases y) as [(_ & r & E & _)|(_ & E)];
      rewrite E in H; discriminate H.
  - intros H. destruct (entity_cases x) as [(_ & r & E & _)|(_ & E)];
      rewrite E in H; discriminate H.
  - intros H. apply entity_decode in H as [-> H]. f_equal. now apply IH.
Qed.

Lemma escapeHtml_injective_witness :
  escapeHtml (lit "a<b") = escapeHtml (lit "a<b") /\ lit "a<b" = lit "a<b".
Proof.
  split; [reflexivity|].
  exact (escapeHtml_injective (lit "a<b") (lit "a<b") eq_refl).
Defined.

(** *** [normalizeUrl] *)

Lemma trim_idempotent (s : jsstring) : trim (trim s) = trim s.
Proof.
  destruct (trim_is_trim_of s) as (_ & _ & _ & _ & _ & Hh & Hl).
  now apply trim_fixed.
Qed.

Lemma ends_well_of_rev (v : jsstring) :
  v <> [] -> no_ws_head (rev v) -> ends_well v.
Proof.
  intros Hv H. unfold ends_well.
  rewrite (app_removelast_last 32 Hv) in H.
  rewrite rev_app_distr in H. exact H.
Qed.

Lemma trim_behind_https (v : jsstring) :
  v <> [] -> no_ws_head (rev v) ->
  trim (lit "https://" ++ v) = lit "https://" ++ v.
Proof.
  intros Hv H. apply trim_fixed; [reflexivity|].
  apply ends_well_rev, ends_well_app. now apply ends_well_of_rev.
Qed.

Lemma has_scheme_https (v : jsstring) : has_scheme (lit "https://" ++ v).
Proof.
  exists (lit "https://"), (lit "https://"), v.
  repeat split. unfold schemes. simpl. auto.
Qed.

(** X4.  [normalizeUrl] applied to its own result changes nothing. *)
Theorem normalizeUrl_idempotent (raw : jsstring) :
  normalizeUrl (normalizeUrl raw) = normalizeUrl raw.
Proof.
  destruct (trim_is_trim_of raw) as (_ & _ & _ & _ & _ & Hh & Hl).
  assert (H : normalizeUrl raw
              = if is_empty (trim raw) then []
                else if test_anchored re_scheme (trim raw) then trim raw
                     else lit "https://" ++ trim raw)
    by (unfold normalizeUrl; now rewrite or_else_nil).
  rewrite H. clear H.
  destruct (is_empty (trim raw)) eqn:E; [reflexivity|].
  destruct (test_anchored re_scheme (trim raw)) eqn:T.
  - unfold normalizeUrl. rewrite or_else_nil, trim_idempotent.
    now rewrite E, T.
  - apply is_empty_false in E.
    unfold normalizeUrl. rewrite or_else_nil, trim_behind_https by assumption.
    assert (T' : test_anchored re_scheme (lit "https://" ++ trim raw) = true)
      by (apply test_scheme, has_scheme_https).
    now rewrite T'.
Qed.

(** X5.  [normalizeUrl] returns the empty string exactly on the inputs
    made of white space only; on any other input its result starts with
    one of the four schemes and has no white space at its ends. *)
Theorem normalizeUrl_result (raw : jsstring) :
  (trim raw = [] /\ normalizeUrl raw = [])
  \/ (trim raw <> [] /\ normalizeUrl raw <> []
      /\ has_scheme (normalizeUrl raw)
      /\ trim (normalizeUrl raw) = normalizeUrl raw).
Proof.
  destruct (trim_is_trim_of raw) as (_ & _ & _ & _ & _ & Hh & Hl).
  unfold normalizeUrl. rewrite or_else_nil.
  destruct (is_empty (trim raw)) eqn:E.
  - left. apply is_empty_true in E. auto.
  - right. apply is_empty_false in E. split; [exact E|].
    destruct (test_anchored re_scheme (trim raw)) eqn:T.
    + repeat split; auto using trim_idempotent. now apply test_scheme.
    + repeat split.
      * discriminate.
      * apply has_scheme_https.
      * now apply trim_behind_https.
Qed.

(** *** [iconDataUri] *)

Lemma hexDigit_plain (d : N) : uri_breaks (hexDigit d) = false.
Proof.
  unfold uri_breaks, hexDigit. destruct (N.ltb_spec d 10).
  - repeat (apply orb_false_iff; split); apply N.eqb_neq; lia.
  - repeat (apply orb_false_iff; split); apply N.eqb_neq; lia.
Qed.

Lemma unreserved_plain (c : N) :
  uriUnreserved c = true -> uri_breaks c = false /\ isSurrogate c = false.
Proof.
  unfold uriUnreserved, uri_breaks, isSurrogate.
  rewrite !orb_true_iff, !andb_true_iff, !N.leb_le, !N.eqb_eq. intros H.
  split.
  - repeat (apply orb_false_iff; split); apply N.eqb_neq; lia.
  - apply andb_false_iff. rewrite !N.leb_gt. lia.
Qed.

Lemma percent_plain (bytes : list N) :
  Forall (fun c => uri_breaks c = false) (flat_map percent bytes).
Proof.
  induction bytes as [|b bytes IH]; simpl; auto.
  repeat constructor; auto using hexDigit_plain.
Qed.

Lemma encodeURIComponent_result (s : jsstring) :
  match encodeURIComponent s with
  | Throw e => e = URIError /\ existsb isSurrogate s = true
  | Normal out =>
      existsb isSurrogate s = false
      /\ Forall (fun c => uri_breaks c = false) out
  end.
Proof.
  induction s as [|c s IH]; simpl.
  - split; auto.
  - destruct (uriUnreserved c) eqn:Hu.
    + destruct (unreserved_plain c Hu) as [Hb ->].
      destruct (encodeURIComponent s) as [out|e]; simpl; [|exact IH].
      destruct IH as [-> IH]. split; auto.
    + destruct (isSurrogate c) eqn:Hs; [split; auto|].
      destruct (encodeURIComponent s) as [out|e]; simpl; [|exact IH].
      destruct IH as [-> IH]. split; auto.
      apply Forall_app. split; auto using percent_plain.
Qed.

Lemma replace_from_all (P : N -> Prop) (r : regex) (rep : jsstring) :
  Forall P rep ->
  forall s skip, Forall P s -> Forall P (replace_from r rep skip s).
Proof.
  intros Hrep. induction s as [|c s IH]; intros skip Hs; simpl; auto.
  inversion Hs as [|? ? Hc Hs']; subst.
  destruct skip as [|k]; auto.
  destruct (r (c :: s)) as [[|n]|]; auto.
  apply Forall_app. auto.
Qed.

(** X6.  [iconDataUri] raises, a URIError, exactly on the texts that
    hold a lone surrogate.  On any other text it returns a string that
    starts with the [data:] prefix and holds no double quote, no [<], no
    [>], no [&] and no line feed, so that it can stand as it is inside a
    double-quoted attribute, which is how [buildSignatureHTML] uses the
    icons. *)
Theorem iconDataUri_result (svg : jsstring) :
  match iconDataUri svg with
  | Throw e => e = URIError /\ existsb isSurrogate svg = true
  | Normal uri =>
      existsb isSurrogate svg = false
      /\ starts_with N.eqb (lit "data:image/svg+xml;charset=utf-8,") uri = true
      /\ forallb (fun c => negb (uri_breaks c)) uri = true
  end.
Proof.
  unfold iconDataUri. pose proof (encodeURIComponent_result svg) as H.
  destruct (encodeURIComponent svg) as [out|e]; [|exact H].
  cbv beta iota zeta delta [bind ret].
  destruct H as [Hs Hout]. split; [exact Hs|]. split; [reflexivity|].
  assert (Hall : Forall (fun c => uri_breaks c = false)
                   (lit "data:image/svg+xml;charset=utf-8,"
                    ++ replaceAll (re_lit (lit "%20")) (lit " ")
                         (replaceAll (re_lit (lit "%0A")) [] out))).
  { apply Forall_app. split.
    - apply Forall_forall. intros c Hc.
      assert (E : forallb (fun c => negb (uri_breaks c))
                    (lit "data:image/svg+xml;charset=utf-8,") = true)
        by reflexivity.
      rewrite forallb_forall in E. apply E in Hc.
      now apply negb_true_iff in Hc.
    - apply replace_from_all; [repeat constructor|].
      apply replace_from_all; auto. }
  apply forallb_forall. intros c Hc.
  rewrite Forall_forall in Hall. now rewrite (Hall c Hc).
Qed.

(** *** [buildSignatureHTML] *)

Lemma skeleton_ext (th : ThemeName) (p p' : slot -> bool) :
  (forall s, p s = p' s) -> skeleton th p = skeleton th p'.
Proof.
  intros H. unfold skeleton, headerItems, socialItems, social_keys.
  cbn [existsb flat_map]. now rewrite !H.
Qed.

Lemma build_by_slots (data data' : FormData) (opts : BuildOpts) :
  (forall s, slot_value data s = slot_value data' s) ->
  buildSignatureHTML data opts = buildSignatureHTML data' opts.
Proof.
  intros H. rewrite !build_skeleton. f_equal.
  rewrite (skeleton_ext _ (present data) (present data'))
    by (intros s; unfold present; now rewrite H).
  apply flat_map_ext. intros [m|s|s]; simpl; now rewrite ?H.
Qed.

Lemma normalizeUrl_trim (raw : jsstring) :
  normalizeUrl (trim raw) = normalizeUrl raw.
Proof. unfold normalizeUrl. now rewrite !or_else_nil, trim_idempotent. Qed.

(** X7.  White space at the two ends of the company, the phone numbers,
    the e-mail address, the web site, the postal address, the two logo
    fields, the five social links and the legal text has no effect on the
    output. *)
Theorem buildSignatureHTML_trims (data : FormData) (opts : BuildOpts) :
  buildSignatureHTML (trimmed_fields data) opts = buildSignatureHTML data opts.
Proof.
  apply build_by_slots. intros s.
  destruct s as [| | | | | | | | | |k|]; try destruct k;
    unfold slot_value, website_value, social_field, trimmed_fields;
    cbn [firstName lastName jobTitle department companyName officePhone
         mobilePhone websiteUrl emailAddress address logoUrl logoDataUrl
         linkedin facebook twitter instagram whatsapp legal];
    rewrite ?or_else_nil, ?trim_idempotent, ?normalizeUrl_trim; reflexivity.
Qed.

(** X8.  An embedded logo wins over a logo URL: when the field
    [logoDataUrl] holds more than white space, the output is the same
    whatever the field [logoUrl] holds. *)
Theorem embedded_logo_first (data : FormData) (u : jsstring) (opts : BuildOpts) :
  trim (logoDataUrl data) <> [] ->
  buildSignatureHTML (with_logoUrl u data) opts = buildSignatureHTML data opts.
Proof.
  intros H. apply build_by_slots. intros s.
  destruct s as [| | | | | | | | | |k|]; try destruct k; try reflexivity.
  unfold slot_value, with_logoUrl.
  cbn [logoUrl logoDataUrl]. rewrite !or_else_nil.
  unfold or_else. apply is_empty_false in H. now rewrite H.
Qed.

(** A record with an embedded logo, and a logo URL put beside it. *)
Lemma embedded_logo_first_witness :
  trim (logoDataUrl scenario_logo) <> []
  /\ buildSignatureHTML (with_logoUrl (lit "x.com/l.png") scenario_logo)
       {| theme := None |}
     = buildSignatureHTML scenario_logo {| theme := None |}.
Proof.
  assert (H : trim (logoDataUrl scenario_logo) <> []) by discriminate.
  split; [exact H|].
  exact (embedded_logo_first scenario_logo (lit "x.com/l.png")
           {| theme := None |} H).
Defined.

Lemma filter_flat_map {A} (q : N -> bool) (f : A -> jsstring) (l : list A) :
  filter q (flat_map f l) = flat_map (fun x => filter q (f x)) l.
Proof.
  induction l as [|x l IH]; simpl; auto. now rewrite filter_app, IH.
Qed.

Lemma escapeHtml_delimiters (v : jsstring) : filter delimiter (escapeHtml v) = [].
Proof.
  assert (H : forall c, In c (escapeHtml v) -> delimiter c = false)
    by apply escapeHtml_no_delimiter.
  induction (escapeHtml v) as [|c l IH]; simpl; auto.
  rewrite (H c) by (simpl; auto). apply IH. intros. apply H. simpl. auto.
Qed.

Lemma entity_br_delimiters (c : N) :
  filter delimiter (entity_br c) = if c =? 10 then [60; 62] else [].
Proof.
  unfold entity_br. destruct (c =? 10); [reflexivity|].
  assert (H : forall x, In x (entity c) -> delimiter x = false)
    by apply entity_no_delimiter.
  induction (entity c) as [|x l IH]; simpl; auto.
  rewrite (H x) by (simpl; auto). apply IH. intros. apply H. simpl. auto.
Qed.

Lemma legal_delimiters (v : jsstring) :
  filter delimiter (replaceAll (re_lit [10]) (lit "<br/>") (escapeHtml v))
  = concat (repeat [60; 62] (linefeeds v)).
Proof.
  rewrite legal_entities, filter_flat_map. unfold linefeeds.
  induction v as [|c v IH]; auto.
  cbn [flat_map filter]. rewrite entity_br_delimiters, IH, (N.eqb_sym 10 c).
  destruct (c =? 10); reflexivity.
Qed.

Lemma in_when (i : item) (b : bool) (items : list item) :
  In i (when b items) -> In i items.
Proof. destruct b; simpl; tauto. Qed.

Lemma skeleton_line_breaks (th : ThemeName) (p : slot -> bool) (s : slot) :
  In (ValBr s) (skeleton th p) -> s = s_legal.
Proof.
  unfold skeleton, headerItems, socialItems, rowItems. intros H.
  repeat match type of H with
         | In _ (_ ++ _) => apply in_app_or in H; destruct H as [H|H]
         | In _ (when _ _) => apply in_when in H
         | In _ (if ?b then _ else _) => destruct b
         | In _ (flat_map _ _) =>
             apply in_flat_map in H; destruct H as (k & _ & H)
         end;
    simpl in H; intuition (try discriminate; try congruence).
Qed.

Lemma fill_delimiters (data data' : FormData) (items : list item) :
  (forall s, In (ValBr s) items ->
             linefeeds (slot_value data s) = linefeeds (slot_value data' s)) ->
  filter delimiter (flat_map (fill data) items)
  = filter delimiter (flat_map (fill data') items).
Proof.
  intros H. rewrite !filter_flat_map. induction items as [|i items IH]; auto.
  cbn [flat_map]. rewrite IH by (intros; apply H; simpl; auto). f_equal.
  destruct i as [m|s|s]; cbn [fill].
  - reflexivity.
  - now rewrite !escapeHtml_delimiters.
  - rewrite !legal_delimiters. now rewrite (H s) by (simpl; auto).
Qed.

(** X9.  The contents of the fields cannot change the markup: two
    records with values in the same slots, and with as many line feeds in
    their legal texts, give outputs with the same sequence of [<], [>],
    double quotes and apostrophes. *)
Theorem markup_independent (data data' : FormData) (opts : BuildOpts) :
  (forall s, present data s = present data' s) ->
  linefeeds (slot_value data s_legal) = linefeeds (slot_value data' s_legal) ->
  exists html html',
    buildSignatureHTML data opts = Normal html
    /\ buildSignatureHTML data' opts = Normal html'
    /\ filter delimiter html = filter delimiter html'.
Proof.
  intros Hp Hl. do 2 eexists. rewrite !build_skeleton.
  split; [reflexivity|]. split; [reflexivity|].
  rewrite (skeleton_ext _ (present data) (present data')) by exact Hp.
  apply fill_delimiters. intros s Hs.
  apply skeleton_line_breaks in Hs. now subst s.
Qed.

(** The scenario, and a record with the same slots and with markup
    characters in its name and its address. *)
Lemma markup_independent_witness :
  (forall s, present scenario s = present scenario_markup s)
  /\ linefeeds (slot_value scenario s_legal)
     = linefeeds (slot_value scenario_markup s_legal)
  /\ exists html html',
       buildSignatureHTML scenario {| theme := None |} = Normal html
       /\ buildSignatureHTML scenario_markup {| theme := None |} = Normal html'
       /\ filter delimiter html = filter delimiter html'.
Proof.
  assert (Hp : forall s, present scenario s = present scenario_markup s).
  { intros s. destruct s as [| | | | | | | | | |k|]; try destruct k; reflexivity. }
  assert (Hl : linefeeds (slot_value scenario s_legal)
               = linefeeds (slot_value scenario_markup s_legal)) by reflexivity.
  split; [exact Hp|]. split; [exact Hl|].
  exact (markup_independent scenario scenario_markup {| theme := None |} Hp Hl).
Defined.

Lemma starts_with_app (p x y : jsstring) :
  starts_with N.eqb p x = true -> starts_with N.eqb p (x ++ y) = true.
Proof.
  revert x. induction p as [|c p IH]; intros [|d x]; simpl; auto.
  - discriminate.
  - rewrite !andb_true_iff. intros [H1 H2]. auto.
Qed.

Lemma ends_with_app (p a b : jsstring) :
  starts_with N.eqb p (rev b) = true ->
  starts_with N.eqb p (rev (a ++ b)) = true.
Proof. intros H. rewrite rev_app_distr. now apply starts_with_app. Qed.

(** X10.  Whatever the record and the theme, the output is one table: it
    starts with the opening tag of the outer table, ends with the closing
    tag of a table, and has no white space before or behind. *)
Theorem output_frame (data : FormData) (opts : BuildOpts) :
  exists html,
    buildSignatureHTML data opts = Normal html
    /\ starts_with N.eqb (tpl "<table role=`presentation` ") html = true
    /\ starts_with N.eqb (rev (lit "</table>")) (rev html) = true
    /\ trim html = html.
Proof.
  eexists. split; [apply build_skeleton|].
  generalize (theme_of opts) as th. intros th.
  unfold skeleton. rewrite !flat_map_app. split; [reflexivity|].
  split.
  - do 16 apply ends_with_app. reflexivity.
  - apply trim_fixed; [reflexivity|].
    apply ends_well_rev. do 16 apply ends_well_app. reflexivity.
Qed.

(* ===================================================================== *)
(** ** Properties of the validation predicates *)
(* ===================================================================== *)

(** *** Patterns *)

Lemma nullable_matches (r : pattern) : nullable r = true <-> matches r [].
Proof.
  split.
  - induction r; simpl; intros H; try discriminate.
    + constructor.
    + apply andb_true_iff in H as [H1 H2]. apply (m_then _ _ [] []); auto.
    + apply orb_true_iff in H as [H|H]; [apply m_left|apply m_right]; auto.
    + constructor.
  - intros H. remember [] as s eqn:E.
    induction H; simpl; auto; try discriminate.
    + apply app_eq_nil in E as [-> ->]. now rewrite IHmatches1, IHmatches2.
    + now rewrite IHmatches.
    + rewrite IHmatches by assumption. apply orb_true_r.
Qed.

Lemma matches_many_cons (a : pattern) (c : N) (s : list N) :
  matches (Many a) (c :: s) ->
  exists s1 s2, s = s1 ++ s2 /\ matches a (c :: s1) /\ matches (Many a) s2.
Proof.
  intros H. remember (Many a) as r eqn:Er. remember (c :: s) as u eqn:Eu.
  revert s Eu.
  induction H as [| | | | | |a' s0 t H0 _ H1 IH1]; intros z Ez;
    try discriminate.
  injection Er as ->. destruct s0 as [|x s0].
  - apply IH1; auto.
  - simpl in Ez. injection Ez as -> <-. now exists s0, t.
Qed.

Lemma derivative_matches (r : pattern) :
  forall c s, matches (derivative c r) s <-> matches r (c :: s).
Proof.
  induction r as [| |p|a IHa b IHb|a IHa b IHb|a IHa]; intros c s; simpl.
  - split; intros H; inversion H.
  - split; intros H; inversion H.
  - destruct (p c) eqn:E; split; intros H; inversion H; subst.
    + now constructor.
    + constructor.
    + congruence.
  - assert (L : matches (Then (derivative c a) b) s -> matches (Then a b) (c :: s)).
    { intros H. inversion H as [| |? ? s1 t H1 H2| | | |]; subst.
      apply IHa in H1. now apply (m_then a b (c :: s1) t). }
    assert (R : matches (Then a b) (c :: s) ->
                matches (Then (derivative c a) b) s
                \/ (matches a [] /\ matches (derivative c b) s)).
    { intros H. inversion H as [| |? ? s1 t H1 H2 Ep E| | | |].
      destruct s1 as [|x s1].
      - right. simpl in E. subst t. split; auto. now apply IHb.
      - left. simpl in E. injection E as -> <-.
        apply m_then; auto. now apply IHa. }
    destruct (nullable a) eqn:Na.
    + split.
      * intros H. inversion H; subst; auto.
        apply (m_then a b [] (c :: s)); [now apply nullable_matches|].
        now apply IHb.
      * intros H. destruct (R H) as [H1|[_ H1]];
          [now apply m_left|now apply m_right].
    + split; auto. intros H. destruct (R H) as [H1|[H1 _]]; auto.
      apply nullable_matches in H1. congruence.
  - split; intros H; inversion H; subst.
    + apply m_left. now apply IHa.
    + apply m_right. now apply IHb.
    + apply m_left. now apply IHa.
    + apply m_right. now apply IHb.
  - split.
    + intros H. inversion H as [| |? ? s1 t H1 H2| | | |]; subst.
      apply IHa in H1. now apply (m_more a (c :: s1) t).
    + intros H. apply matches_many_cons in H as (s1 & s2 & -> & H1 & H2).
      apply m_then; auto. now apply IHa.
Qed.

Lemma accepts_matches (s : list N) :
  forall r, accepts r s = true <-> matches r s.
Proof.
  induction s as [|c s IH]; intros r; simpl.
  - apply nullable_matches.
  - rewrite IH. apply derivative_matches.
Qed.

Lemma matches_many_class (p : N -> bool) (u : list N) :
  matches (Many (Class p)) u <-> Forall (fun c => p c = true) u.
Proof.
  split.
  - intros H. remember (Many (Class p)) as r eqn:E.
    induction H as [| | | | | |a s t H0 _ H1 IH1]; try discriminate; auto.
    injection E as ->. inversion H0; subst. constructor; auto.
  - induction 1 as [|c u Hc _ IH]; [constructor|].
    apply (m_more _ [c] u); auto. now constructor.
Qed.

Lemma matches_at_least (p : N -> bool) (n : nat) :
  forall u, matches (at_least n (Class p)) u
            <-> (n <= length u)%nat /\ Forall (fun c => p c = true) u.
Proof.
  induction n as [|n IH]; intros u; simpl.
  - rewrite matches_many_class. split; [intros H; split; auto; lia|tauto].
  - split.
    + intros H. inversion H as [| |? ? s t H1 H2| | | |]; subst.
      inversion H1; subst. apply IH in H2 as [Hn Hall]. simpl.
      split; [lia|auto].
    + intros [H1 H2]. destruct u as [|c u]; [simpl in H1; lia|].
      inversion H2; subst. apply (m_then _ _ [c] u); [now constructor|].
      apply IH. simpl in H1. split; [lia|auto].
Qed.

(** *** Code units *)

Lemma utf16_pair (c : N) :
  65536 <= c ->
  exists h l, utf16 c = [h; l] /\ 55296 <= h /\ 56320 <= l <= 57343.
Proof.
  intros H. unfold utf16. destruct (N.ltb_spec c 65536); [lia|].
  do 2 eexists. split; [reflexivity|].
  assert (B : (c - 65536) mod 1024 < 1024)
    by (apply N.mod_upper_bound; discriminate).
  revert B. generalize ((c - 65536) mod 1024) ((c - 65536) / 1024). lia.
Qed.

Lemma white_space_bound (c : N) : isWhiteSpace c = true -> c <= 65279.
Proof.
  unfold isWhiteSpace.
  rewrite !orb_true_iff, !andb_true_iff, !N.leb_le, !N.eqb_eq. lia.
Qed.

Lemma phone_char_bound (c : N) :
  phone_char c = true -> c <= 65279 /\ (c < 56320 \/ 57343 < c).
Proof.
  unfold phone_char. rewrite !orb_true_iff, !andb_true_iff, !N.leb_le, !N.eqb_eq.
  intros [[[[[H|H]|H]|H]|H]|H]; try lia.
  pose proof (white_space_bound c H).
  revert H. unfold isWhiteSpace.
  rewrite !orb_true_iff, !andb_true_iff, !N.leb_le, !N.eqb_eq. lia.
Qed.

Lemma phone_char_plain (c : N) : phone_char c = true -> special c = false.
Proof.
  unfold phone_char, special, delimiter, isWhiteSpace.
  rewrite !orb_true_iff, !andb_true_iff, !N.leb_le, !N.eqb_eq. intros H.
  repeat (apply orb_false_iff; split); apply N.eqb_neq; lia.
Qed.

Lemma code_units_phone (s : jsstring) :
  Forall (fun c => phone_char c = true) (code_units s) ->
  code_units s = s /\ Forall (fun c => phone_char c = true) s.
Proof.
  unfold code_units. induction s as [|c s IH]; simpl; auto.
  intros H. apply Forall_app in H as [Hc Hs].
  destruct (N.ltb_spec c 65536) as [L|L].
  - unfold utf16 in *. apply N.ltb_lt in L. rewrite L in *.
    destruct (IH Hs) as [-> Hs']. inversion Hc; subst. split; auto.
  - destruct (utf16_pair c L) as (h & l & E & _ & Hl). rewrite E in Hc.
    inversion Hc as [|? ? _ Hc']; subst. inversion Hc' as [|? ? Hp _]; subst.
    apply phone_char_bound in Hp. lia.
Qed.

Lemma phone_code_units (s : jsstring) :
  Forall (fun c => phone_char c = true) s -> code_units s = s.
Proof.
  unfold code_units. induction 1 as [|c s Hc _ IH]; auto.
  apply phone_char_bound in Hc as [Hc _].
  cbn [flat_map]. rewrite IH.
  unfold utf16. destruct (N.ltb_spec c 65536); [reflexivity|lia].
Qed.

Lemma entities_plain (s : jsstring) :
  Forall (fun c => special c = false) s -> flat_map entity s = s.
Proof.
  induction 1 as [|c s Hc _ IH]; simpl; auto.
  destruct (entity_cases c) as [(E & _)|(_ & ->)]; [congruence|].
  simpl. now rewrite IH.
Qed.

(** *** [isPhone] *)

(** X11.  [isPhone] accepts the values that are empty once trimmed, and
    those of at least six characters that are all digits, [+], [(], [)],
    [-] or white space.  A value that it accepts goes into the markup as
    it is: [escapeHtml] changes nothing in it. *)
Theorem isPhone_accepts (v : jsstring) :
  (isPhone v = true
   <-> trim v = []
       \/ ((6 <= length (trim v))%nat /\ forallb phone_char (trim v) = true))
  /\ (isPhone v = true -> escapeHtml (trim v) = trim v).
Proof.
  assert (H : isPhone v = true
              <-> trim v = []
                  \/ ((6 <= length (trim v))%nat
                      /\ Forall (fun c => phone_char c = true) (trim v))).
  { unfold isPhone. rewrite or_else_nil.
    destruct (is_empty (trim v)) eqn:E.
    - apply is_empty_true in E. tauto.
    - apply is_empty_false in E.
      unfold phone_pattern. rewrite accepts_matches, matches_at_least. split.
      + intros [Hn Hall]. right.
        destruct (code_units_phone _ Hall) as [Eu Hs]. rewrite Eu in Hn. auto.
      + intros [Ht|[Hn Hall]]; [contradiction|].
        rewrite (phone_code_units _ Hall). auto. }
  split.
  - rewrite H, forallb_forall, Forall_forall. tauto.
  - intros Hv. apply H in Hv as [->|[_ Hall]]; [reflexivity|].
    rewrite escapeHtml_entities. apply entities_plain.
    eapply Forall_impl; [|exact Hall]. apply phone_char_plain.
Qed.

Lemma isPhone_accepts_witness :
  isPhone (lit " +1 (212) 555-0199 ") = true
  /\ escapeHtml (trim (lit " +1 (212) 555-0199 ")) = trim (lit " +1 (212) 555-0199 ").
Proof.
  assert (H : isPhone (lit " +1 (212) 555-0199 ") = true) by reflexivity.
  split; [exact H|].
  exact (proj2 (isPhone_accepts (lit " +1 (212) 555-0199 ")) H).
Defined.

(** *** [isEmail] *)

Lemma address_char_unit (c : N) : address_char c = true <-> address_unit c.
Proof.
  unfold address_char, address_unit.
  rewrite negb_true_iff, orb_false_iff, N.eqb_neq. tauto.
Qed.

Lemma address_units (n : nat) (u : list N) :
  matches (at_least n (Class address_char)) u
  <-> (n <= length u)%nat /\ Forall address_unit u.
Proof.
  rewrite matches_at_least. split; intros [H1 H2]; split; auto;
    (eapply Forall_impl; [|exact H2]); intros c; apply address_char_unit.
Qed.

Lemma email_matches (u : list N) :
  matches email_pattern u
  <-> exists a d t,
        u = a ++ 64 :: d ++ 46 :: t
        /\ (1 <= length a)%nat /\ (1 <= length d)%nat /\ (2 <= length t)%nat
        /\ Forall address_unit a /\ Forall address_unit d
        /\ Forall address_unit t.
Proof.
  unfold email_pattern. split.
  - intros H.
    inversion H as [| |? ? a r1 Ha H1| | | |]; subst.
    inversion H1 as [| |? ? x r2 Hx H2| | | |]; subst.
    inversion H2 as [| |? ? d r3 Hd H3| | | |]; subst.
    inversion H3 as [| |? ? y t Hy Ht| | | |]; subst.
    inversion Hx as [|? c Hc| | | | |]; subst. apply N.eqb_eq in Hc. subst c.
    inversion Hy as [|? c Hc| | | | |]; subst. apply N.eqb_eq in Hc. subst c.
    apply (address_units 1) in Ha as [? ?].
    apply (address_units 1) in Hd as [? ?].
    apply (address_units 2) in Ht as [? ?].
    exists a, d, t. repeat split; auto.
  - intros (a & d & t & -> & La & Ld & Lt & Ha & Hd & Ht).
    apply m_then; [now apply (address_units 1)|].
    apply (m_then _ _ [64]); [now constructor|].
    apply m_then; [now apply (address_units 1)|].
    apply (m_then _ _ [46]); [now constructor|].
    now apply (address_units 2).
Qed.

Lemma count_address_units (u : list N) :
  Forall address_unit u -> count_occ N.eq_dec u 64 = O.
Proof.
  induction 1 as [|c u [_ Hc] _ IH]; simpl; auto.
  destruct (N.eq_dec c 64); congruence.
Qed.

Lemma count_code_units (s : jsstring) :
  count_occ N.eq_dec (code_units s) 64 = count_occ N.eq_dec s 64.
Proof.
  unfold code_units. induction s as [|c s IH]; auto.
  cbn [flat_map]. rewrite count_occ_app, IH.
  destruct (N.ltb_spec c 65536) as [L|L].
  - unfold utf16. apply N.ltb_lt in L. rewrite L. cbn [count_occ].
    destruct (N.eq_dec c 64); lia.
  - destruct (utf16_pair c L) as (h & l & -> & Hh & Hl). cbn [count_occ].
    destruct (N.eq_dec h 64), (N.eq_dec l 64), (N.eq_dec c 64); lia.
Qed.

Lemma code_units_white_space (s : jsstring) :
  Forall (fun c => isWhiteSpace c = false) (code_units s) ->
  Forall (fun c => isWhiteSpace c = false) s.
Proof.
  unfold code_units. induction s as [|c s IH]; auto.
  cbn [flat_map]. intros H. apply Forall_app in H as [Hc Hs].
  constructor; auto.
  destruct (N.ltb_spec c 65536) as [L|L].
  - unfold utf16 in Hc. apply N.ltb_lt in L. rewrite L in Hc.
    now inversion Hc.
  - destruct (isWhiteSpace c) eqn:E; auto.
    apply white_space_bound in E. lia.
Qed.

(** X12.  [isEmail] accepts exactly the values whose trimmed text reads,
    in code units, as a part of at least one unit, an [@], a part of at
    least one unit, a dot and a part of at least two units, none of the
    units of the three parts being white space or an [@].  An accepted
    value so holds one [@] only and no white space once trimmed. *)
Theorem isEmail_accepts (v : jsstring) :
  (isEmail v = true
   <-> exists a d t,
         code_units (trim v) = a ++ 64 :: d ++ 46 :: t
         /\ (1 <= length a)%nat /\ (1 <= length d)%nat /\ (2 <= length t)%nat
         /\ Forall address_unit a /\ Forall address_unit d
         /\ Forall address_unit t)
  /\ (isEmail v = true ->
      count_occ N.eq_dec (trim v) 64 = 1%nat
      /\ forallb (fun c => negb (isWhiteSpace c)) (trim v) = true).
Proof.
  assert (H : isEmail v = true <-> matches email_pattern (code_units (trim v))).
  { unfold isEmail. rewrite or_else_nil.
    destruct (is_empty (trim v)) eqn:E; [|apply accepts_matches].
    apply is_empty_true in E. rewrite E. split; [discriminate|].
    intros M. apply email_matches in M as (a & d & t & M & _).
    destruct a; discriminate M. }
  split; [now rewrite H, email_matches|].
  intros Hv. apply H in Hv.
  apply email_matches in Hv as (a & d & t & E & _ & _ & _ & Ha & Hd & Ht).
  split.
  - rewrite <- count_code_units, E.
    rewrite count_occ_app. cbn [count_occ].
    destruct (N.eq_dec 64 64) as [_|N]; [|congruence].
    rewrite count_occ_app. cbn [count_occ].
    destruct (N.eq_dec 46 64) as [N|_]; [discriminate N|].
    now rewrite !count_address_units.
  - apply forallb_forall. intros c Hc. apply negb_true_iff.
    assert (W : Forall (fun c => isWhiteSpace c = false) (code_units (trim v))).
    { rewrite E. apply Forall_app. split.
      - eapply Forall_impl; [|exact Ha]. now intros ? [? _].
      - constructor; [reflexivity|]. apply Forall_app. split.
        + eapply Forall_impl; [|exact Hd]. now intros ? [? _].
        + constructor; [reflexivity|].
          eapply Forall_impl; [|exact Ht]. now intros ? [? _]. }
    apply code_units_white_space in W. rewrite Forall_forall in W. auto.
Qed.

Lemma isEmail_accepts_witness :
  isEmail (lit " alex.johnson@acmepayments.com ") = true
  /\ count_occ N.eq_dec (trim (lit " alex.johnson@acmepayments.com ")) 64 = 1%nat
  /\ forallb (fun c => negb (isWhiteSpace c))
       (trim (lit " alex.johnson@acmepayments.com ")) = true.
Proof.
  assert (H : isEmail (lit " alex.johnson@acmepayments.com ") = true)
    by reflexivity.
  split; [exact H|].
  exact (proj2 (isEmail_accepts (lit " alex.johnson@acmepayments.com ")) H).
Defined.

(* ===================================================================== *)
(** ** Further properties of the case converter *)
(* ===================================================================== *)

(** *** Toggle and alternating, code point by code point *)

Section CodePointTransforms.

Context {U : Unicode}.

Lemma test_letter (c : N) : test re_letter [c] = isL c.
Proof. cbn. now destruct (isL c). Qed.

Lemma toggle_fold (s : jsstring) :
  forall acc,
    fold_left
      (fun (out : jsstring) (ch : jsstring) =>
         if negb (test re_letter ch) then out ++ ch
         else out ++ (if str_eqb ch (toLocaleUpperCase ch)
                      then toLocaleLowerCase ch else toLocaleUpperCase ch))
      (Array_from s) acc
    = acc ++ flat_map toggled s.
Proof.
  induction s as [|c s IH]; intros acc; cbn [Array_from map fold_left flat_map].
  - now rewrite app_nil_r.
  - fold (Array_from s). rewrite IH, test_letter. unfold toggled.
    destruct (isL c); cbn [negb]; now rewrite <- app_assoc.
Qed.

Lemma toggleCase_toggled (s : jsstring) : toggleCase s = flat_map toggled s.
Proof. unfold toggleCase. now rewrite toggle_fold. Qed.

Lemma alternate_fold (s : jsstring) :
  forall acc flip,
    fst (fold_left
           (fun (st : jsstring * bool) (ch : jsstring) =>
              let (out, flip) := st in
              if negb (test re_letter ch) then (out ++ ch, flip)
              else
                (out ++ (if flip then toLocaleUpperCase ch else toLocaleLowerCase ch),
                 negb flip))
           (Array_from s) (acc, flip))
    = acc ++ alternate flip s.
Proof.
  induction s as [|c s IH]; intros acc flip;
    cbn [Array_from map fold_left alternate].
  - cbn. now rewrite app_nil_r.
  - fold (Array_from s). rewrite test_letter.
    destruct (isL c); cbn [negb]; rewrite IH; now rewrite <- app_assoc.
Qed.

Lemma alternatingCase_alternate (s : jsstring) :
  alternatingCase s = alternate false s.
Proof. unfold alternatingCase. now rewrite alternate_fold. Qed.


Lemma toggled_plain (s : jsstring) :
  Forall (fun c => isL c = false) s -> flat_map toggled s = s.
Proof.
  induction 1 as [|c s Hc H IH]; cbn [flat_map]; auto.
  rewrite IH. unfold toggled. now rewrite Hc.
Qed.

Lemma alternate_plain (s : jsstring) :
  Forall (fun c => isL c = false) s -> forall flip, alternate flip s = s.
Proof.
  induction 1 as [|c s Hc H IH]; intros flip; cbn [alternate]; auto.
  now rewrite Hc, IH.
Qed.

Lemma words_in_gaps (s : jsstring) :
  Forall (fun c => isL c = false) s -> words_in s (map Gap s).
Proof. induction 1; cbn [map]; constructor; auto. Qed.

Lemma rewrite_gaps (f : jsstring -> jsstring) (s : jsstring) :
  rewrite_words f (map Gap s) = s.
Proof.
  unfold rewrite_words. induction s as [|c s IH]; cbn [map flat_map]; auto.
  now rewrite IH.
Qed.

Lemma replaceWith_plain (fn : jsstring -> M jsstring) (f : jsstring -> jsstring)
  (s : jsstring) :
  (forall w, fn w = Normal (f w)) ->
  Forall (fun c => isL c = false) s ->
  replaceWith re_word fn s = Normal s.
Proof.
  intros Hf Hs.
  rewrite (replaceWith_words fn f s (map Gap s) Hf (words_in_gaps s Hs)).
  now rewrite rewrite_gaps.
Qed.

Lemma letterless (s : jsstring) :
  forallb (fun c => negb (isL c)) s = true ->
  Forall (fun c => isL c = false) s.
Proof.
  intros H. apply Forall_forall. intros c Hc.
  rewrite forallb_forall in H. now apply negb_true_iff, H.
Qed.

End CodePointTransforms.



(** X15.  With the flag set, a text without any letter comes back as it
    is from upper, lower, title, toggle and alternating, white space at
    its ends included. *)
Theorem letterless_unchanged (U : Unicode) (text : jsstring) :
  forallb (fun c => negb (isL c)) text = true ->
  forall active, In active letter_keys ->
    computeOutput text true active = Normal text.
Proof.
  intros H%letterless active Hk.
  unfold letter_keys in Hk. cbn [In] in Hk.
  destruct Hk as [<-|[<-|[<-|[<-|[<-|[]]]]]].
  - change (computeOutput text true (lit "upper"))
      with (replaceWith re_word (fun w => ret (toLocaleUpperCase w)) text).
    now apply (replaceWith_plain _ toLocaleUpperCase).
  - change (computeOutput text true (lit "lower"))
      with (replaceWith re_word (fun w => ret (toLocaleLowerCase w)) text).
    now apply (replaceWith_plain _ toLocaleLowerCase).
  - change (computeOutput text true (lit "title"))
      with (replaceWith re_word capitalize text).
    apply (replaceWith_plain _ capitalized); auto.
    apply capitalize_capitalized.
  - change (computeOutput text true (lit "toggle"))
      with (ret (toggleCase text)).
    now rewrite toggleCase_toggled, toggled_plain.
  - change (computeOutput text true (lit "alternating"))
      with (ret (alternatingCase text)).
    now rewrite alternatingCase_alternate, alternate_plain.
Qed.

Lemma letterless_unchanged_witness :
  forallb (fun c => negb (@isL BasicLatin.tables c)) (lit " 12:30, 4/5! ") = true
  /\ forall active, In active letter_keys ->
       @computeOutput BasicLatin.tables (lit " 12:30, 4/5! ") true active
       = Normal (lit " 12:30, 4/5! ").
Proof.
  split; [reflexivity|].
  apply (letterless_unchanged BasicLatin.tables (lit " 12:30, 4/5! ")).
  reflexivity.
Defined.

(** *** Texts without anything to transform *)

Section NothingToTransform.

Context {U : Unicode}.

Lemma trim_part (P : N -> Prop) (s : jsstring) :
  Forall P s -> Forall P (trim s).
Proof.
  intros H. destruct (trim_is_trim_of s) as (pre & post & E & _).
  rewrite E in H. apply Forall_app in H as [_ H].
  now apply Forall_app in H as [H _].
Qed.

Lemma splitWords_none (text : jsstring) :
  Forall (fun c => alnum c = false) (trim text) -> splitWords text = [].
Proof.
  intros H. apply (tokens_of_unique (trim text)).
  - apply splitWords_tokens.
  - now constructor.
Qed.

Lemma delimiter_keys_none (text : jsstring) (preserve : bool) (active : jsstring) :
  splitWords text = [] ->
  In active delimiter_keys ->
  computeOutput text preserve active = Normal [].
Proof.
  intros E Hk. unfold delimiter_keys in Hk. cbn [In] in Hk.
  destruct Hk as [<-|[<-|[<-|[<-|[<-|[<-|[]]]]]]].
  - change (computeOutput text preserve (lit "camel")) with (toCamelCase text).
    unfold toCamelCase. now rewrite E.
  - change (computeOutput text preserve (lit "pascal")) with (toPascalCase text).
    unfold toPascalCase. now rewrite E.
  - change (computeOutput text preserve (lit "snake"))
      with (ret (toDelimited text (lit "_"))).
    unfold toDelimited. now rewrite E.
  - change (computeOutput text preserve (lit "kebab"))
      with (ret (toDelimited text (lit "-"))).
    unfold toDelimited. now rewrite E.
  - change (computeOutput text preserve (lit "dot"))
      with (ret (toDelimited text (lit "."))).
    unfold toDelimited. now rewrite E.
  - change (computeOutput text preserve (lit "space"))
      with (ret (toSpaceCase text)).
    unfold toSpaceCase. now rewrite E.
Qed.

Hypothesis upper_empty : toLocaleUpperCase [] = [].
Hypothesis lower_empty : toLocaleLowerCase [] = [].

Lemma case_keys_empty (preserve : bool) (active : jsstring) :
  In active [lit "upper"; lit "lower"; lit "title"; lit "sentence";
             lit "toggle"; lit "alternating"] ->
  computeOutput [] preserve active = Normal [].
Proof.
  intros Hk. cbn [In] in Hk.
  destruct Hk as [<-|[<-|[<-|[<-|[<-|[<-|[]]]]]]].
  - destruct preserve; [reflexivity|].
    change (computeOutput [] false (lit "upper"))
      with (ret (toLocaleUpperCase [])).
    now rewrite upper_empty.
  - destruct preserve; [reflexivity|].
    change (computeOutput [] false (lit "lower"))
      with (ret (toLocaleLowerCase [])).
    now rewrite lower_empty.
  - now destruct preserve.
  - assert (E : toSentenceCase [] = []).
    { unfold toSentenceCase. now rewrite lower_empty. }
    destruct preserve.
    + change (computeOutput [] true (lit "sentence"))
        with (ret (toSentenceCase [])).
      now rewrite E.
    + change (computeOutput [] false (lit "sentence"))
        with (ret (toSentenceCase [])).
      now rewrite E.
  - now destruct preserve.
  - now destruct preserve.
Qed.

Lemma case_keys_blank (text : jsstring) (active : jsstring) :
  trim text = [] ->
  In active [lit "upper"; lit "lower"; lit "title"; lit "sentence";
             lit "toggle"; lit "alternating"] ->
  computeOutput text false active = computeOutput [] false active.
Proof.
  intros E Hk. cbn [In] in Hk.
  destruct Hk as [<-|[<-|[<-|[<-|[<-|[<-|[]]]]]]].
  - change (ret (toLocaleUpperCase (trim text)) = ret (toLocaleUpperCase (trim []))).
    now rewrite E.
  - change (ret (toLocaleLowerCase (trim text)) = ret (toLocaleLowerCase (trim []))).
    now rewrite E.
  - change (toTitleCase (trim text) = toTitleCase (trim [])).
    now rewrite E.
  - change (ret (toSentenceCase (trim text)) = ret (toSentenceCase (trim []))).
    now rewrite E.
  - change (ret (toggleCase (trim text)) = ret (toggleCase (trim []))).
    now rewrite E.
  - change (ret (alternatingCase (trim text)) = ret (alternatingCase (trim []))).
    now rewrite E.
Qed.

End NothingToTransform.

(** X16.  Provided the case mappings of the host map the empty string to
    itself: the empty text gives the empty text, for every key (one of
    the twelve or not) and either value of the flag; and a text of white
    space only gives the empty text for each of the twelve keys when the
    flag is not set. *)
Theorem empty_output (U : Unicode) :
  toLocaleUpperCase [] = [] ->
  toLocaleLowerCase [] = [] ->
  (forall preserve active, computeOutput [] preserve active = Normal [])
  /\ (forall text active,
        trim text = [] -> In active action_keys ->
        computeOutput text false active = Normal []).
Proof.
  intros Hu Hl.
  assert (Hd : forall text preserve active,
             trim text = [] -> In active delimiter_keys ->
             computeOutput text preserve active = Normal []).
  { intros text preserve active E. apply delimiter_keys_none.
    apply splitWords_none. rewrite E. constructor. }
  assert (Hkeys : forall active, In active action_keys ->
             In active [lit "upper"; lit "lower"; lit "title"; lit "sentence";
                        lit "toggle"; lit "alternating"]
             \/ In active delimiter_keys).
  { intros active H. unfold action_keys, delimiter_keys in *. cbn [In] in *.
    intuition. }
  split.
  - intros preserve active.
    destruct (in_dec (list_eq_dec N.eq_dec) active action_keys) as [Hin|Hout].
    + destruct (Hkeys active Hin) as [Hc|Hc].
      * now apply case_keys_empty.
      * now apply Hd.
    + unfold action_keys in Hout. cbn [In] in Hout.
      unfold computeOutput.
      repeat match goal with
             | |- context [str_eqb active ?k] =>
                 rewrite (str_eqb_neq active k) by (intros ->; intuition)
             end.
      reflexivity.
  - intros text active E Hin.
    destruct (Hkeys active Hin) as [Hc|Hc].
    + rewrite (case_keys_blank text active E Hc). now apply case_keys_empty.
    + now apply Hd.
Qed.

Lemma empty_output_witness :
  @toLocaleUpperCase BasicLatin.tables [] = []
  /\ @toLocaleLowerCase BasicLatin.tables [] = []
  /\ (forall preserve active,
        @computeOutput BasicLatin.tables [] preserve active = Normal [])
  /\ (forall text active,
        trim text = [] -> In active action_keys ->
        @computeOutput BasicLatin.tables text false active = Normal []).
Proof.
  split; [reflexivity|]. split; [reflexivity|].
  exact (empty_output BasicLatin.tables eq_refl eq_refl).
Defined.

(** X17.  A text that holds no letter and no digit (punctuation, white
    space) gives the empty text under each of the six delimiter keys,
    whatever the flag. *)
Theorem nothing_to_join (U : Unicode) (text : jsstring) :
  forallb (fun c => negb (alnum c)) text = true ->
  forall preserve active, In active delimiter_keys ->
    computeOutput text preserve active = Normal [].
Proof.
  intros H preserve active Hk. apply delimiter_keys_none; auto.
  apply splitWords_none, trim_part, Forall_forall. intros c Hc.
  rewrite forallb_forall in H. now apply negb_true_iff, H.
Qed.

Lemma nothing_to_join_witness :
  forallb (fun c => negb (@alnum BasicLatin.tables c)) (lit " -- (?!) ... ") = true
  /\ forall preserve active, In active delimiter_keys ->
       @computeOutput BasicLatin.tables (lit " -- (?!) ... ") preserve active
       = Normal [].
Proof.
  split; [reflexivity|].
  apply (nothing_to_join BasicLatin.tables (lit " -- (?!) ... ")).
  reflexivity.
Defined.

(** *** The space transform as a normal form *)

Section SpaceCase.

Context {U : Unicode}.

Lemma tokens_alnum (s : jsstring) (ws : list jsstring) :
  tokens_of s ws ->
  Forall (fun w => w <> [] /\ Forall (fun x => alnum x = true) w) ws.
Proof.
  induction 1 as [g Hg|g c t rest ws Hg Hw Hr H IH]; constructor; auto.
  split; [discriminate|assumption].
Qed.

Hypothesis separates : white_space_separates.

Lemma space_gap : alnum 32 = false.
Proof. now apply separates. Qed.

Lemma join_tokens (ws : list jsstring) :
  Forall (fun w => w <> [] /\ Forall (fun x => alnum x = true) w) ws ->
  tokens_of (join (lit " ") ws) ws.
Proof.
  induction 1 as [|w ws [Hn Hw] H IH].
  - constructor. constructor.
  - destruct w as [|c t]; [congruence|].
    destruct ws as [|w' ws].
    + cbn [join].
      assert (T : tokens_of ((c :: t) ++ []) [c :: t]).
      { apply tokens_of_word; auto. exact I. }
      now rewrite app_nil_r in T.
    + change (join (lit " ") ((c :: t) :: w' :: ws))
        with ((c :: t) ++ lit " " ++ join (lit " ") (w' :: ws)).
      apply tokens_of_word; auto.
      * exact space_gap.
      * apply tokens_of_gap; auto.
        constructor; [exact space_gap|constructor].
Qed.

Lemma alnum_no_ws (c : N) : alnum c = true -> isWhiteSpace c = false.
Proof.
  intros H. destruct (isWhiteSpace c) eqn:E; auto.
  apply separates in E. congruence.
Qed.

Lemma join_head (ws : list jsstring) :
  Forall (fun w => w <> [] /\ Forall (fun x => alnum x = true) w) ws ->
  no_ws_head (join (lit " ") ws).
Proof.
  intros H. destruct H as [|w ws [Hn Hw] H]; [exact I|].
  destruct w as [|c t]; [congruence|].
  inversion Hw as [|? ? Hc _]; subst.
  destruct ws; cbn; now apply alnum_no_ws.
Qed.

Lemma join_last (ws : list jsstring) :
  Forall (fun w => w <> [] /\ Forall (fun x => alnum x = true) w) ws ->
  no_ws_head (rev (join (lit " ") ws)).
Proof.
  induction 1 as [|w ws [Hn Hw] H IH]; [exact I|].
  destruct ws as [|w' ws].
  - cbn [join]. destruct (rev w) as [|c r] eqn:E; [exact I|].
    cbn. apply alnum_no_ws.
    rewrite Forall_forall in Hw. apply Hw, in_rev. rewrite E. now left.
  - change (join (lit " ") (w :: w' :: ws))
      with (w ++ lit " " ++ join (lit " ") (w' :: ws)).
    rewrite !rev_app_distr.
    destruct (rev (join (lit " ") (w' :: ws))) as [|c r] eqn:E.
    + apply (f_equal (@rev N)) in E. rewrite rev_involutive in E.
      inversion H as [|? ? [Hn' _] _]; subst.
      destruct w' as [|x w']; [congruence|].
      destruct ws; cbn in E; discriminate.
    + exact IH.
Qed.

Lemma splitWords_join (ws : list jsstring) :
  Forall (fun w => w <> [] /\ Forall (fun x => alnum x = true) w) ws ->
  splitWords (join (lit " ") ws) = ws.
Proof.
  intros H. apply (tokens_of_unique (trim (join (lit " ") ws))).
  - apply splitWords_tokens.
  - rewrite trim_fixed by auto using join_head, join_last.
    now apply join_tokens.
Qed.

Lemma splitWords_toSpaceCase (text : jsstring) :
  splitWords (toSpaceCase text) = splitWords text.
Proof.
  unfold toSpaceCase. apply splitWords_join.
  apply (tokens_alnum (trim text)), splitWords_tokens.
Qed.

End SpaceCase.

(** X18.  The output of the space transform is a normal form of the
    delimiter family: it has the same tokens as the text it came from, so
    that each of the six delimiter transforms gives on it what it gives on
    the text, and the space transform gives it back.  No white space
    character is taken to be a letter or a digit. *)
Theorem space_normal_form (U : Unicode) (text : jsstring) :
  white_space_separates ->
  splitWords (toSpaceCase text) = splitWords text
  /\ toSpaceCase (toSpaceCase text) = toSpaceCase text
  /\ trim (toSpaceCase text) = toSpaceCase text
  /\ forall preserve preserve' active, In active delimiter_keys ->
       computeOutput (toSpaceCase text) preserve active
       = computeOutput text preserve' active.
Proof.
  intros Hs.
  assert (E : splitWords (toSpaceCase text) = splitWords text)
    by now apply splitWords_toSpaceCase.
  assert (Ht : Forall (fun w => w <> [] /\ Forall (fun x => alnum x = true) w)
                 (splitWords text))
    by apply (tokens_alnum (trim text)), splitWords_tokens.
  split; [exact E|]. split; [|split].
  - unfold toSpaceCase at 1 3. now rewrite E.
  - unfold toSpaceCase.
    apply trim_fixed; [now apply join_head|now apply join_last].
  - intros preserve preserve' active Hk.
    unfold delimiter_keys in Hk. cbn [In] in Hk.
    destruct Hk as [<-|[<-|[<-|[<-|[<-|[<-|[]]]]]]].
    + change (toCamelCase (toSpaceCase text) = toCamelCase text).
      unfold toCamelCase. now rewrite E.
    + change (toPascalCase (toSpaceCase text) = toPascalCase text).
      unfold toPascalCase. now rewrite E.
    + change (ret (toDelimited (toSpaceCase text) (lit "_"))
              = ret (toDelimited text (lit "_"))).
      unfold toDelimited. now rewrite E.
    + change (ret (toDelimited (toSpaceCase text) (lit "-"))
              = ret (toDelimited text (lit "-"))).
      unfold toDelimited. now rewrite E.
    + change (ret (toDelimited (toSpaceCase text) (lit "."))
              = ret (toDelimited text (lit "."))).
      unfold toDelimited. now rewrite E.
    + change (ret (toSpaceCase (toSpaceCase text)) = ret (toSpaceCase text)).
      unfold toSpaceCase at 1 3. now rewrite E.
Qed.

Lemma space_normal_form_witness :
  @white_space_separates BasicLatin.tables
  /\ @splitWords BasicLatin.tables
       (@toSpaceCase BasicLatin.tables (lit "  Hello,   world! "))
     = @splitWords BasicLatin.tables (lit "  Hello,   world! ")
  /\ @toSpaceCase BasicLatin.tables
       (@toSpaceCase BasicLatin.tables (lit "  Hello,   world! "))
     = @toSpaceCase BasicLatin.tables (lit "  Hello,   world! ")
  /\ trim (@toSpaceCase BasicLatin.tables (lit "  Hello,   world! "))
     = @toSpaceCase BasicLatin.tables (lit "  Hello,   world! ")
  /\ forall preserve preserve' active, In active delimiter_keys ->
       @computeOutput BasicLatin.tables
         (@toSpaceCase BasicLatin.tables (lit "  Hello,   world! "))
         preserve active
       = @computeOutput BasicLatin.tables (lit "  Hello,   world! ")
           preserve' active.
Proof.
  split; [exact basic_latin_white_space|].
  exact (space_normal_form BasicLatin.tables (lit "  Hello,   world! ")
           basic_latin_white_space).
Defined.

(** *** Applying lower twice *)

Section LowerTwice.

Context {U : Unicode}.

Variable low : N -> jsstring.

Hypothesis lower_pointwise : forall w, toLocaleLowerCase w = flat_map low w.


End LowerTwice.





(** *** Texts of Basic Latin *)

Section Agreement.

Context {U : Unicode}.

Hypothesis host : basic_latin_host U.

Lemma isL_ascii (c : N) : c < 128 -> @isL U c = @isL BasicLatin.tables c.
Proof. now apply host. Qed.

Lemma alnum_ascii (c : N) :
  c < 128 -> @alnum U c = @alnum BasicLatin.tables c.
Proof.
  intros H. unfold alnum. destruct host as (HL & HN & _).
  now rewrite HL, HN.
Qed.

Lemma upper_ascii (w : jsstring) :
  ascii w -> @toLocaleUpperCase U w = @toLocaleUpperCase BasicLatin.tables w.
Proof. now apply host. Qed.

Lemma lower_ascii (w : jsstring) :
  ascii w -> @toLocaleLowerCase U w = @toLocaleLowerCase BasicLatin.tables w.
Proof. now apply host. Qed.

Lemma lower1_ascii (w : jsstring) : ascii w -> ascii (map BasicLatin.lower1 w).
Proof.
  induction 1 as [|c w Hc H IH]; constructor; auto.
  unfold BasicLatin.lower1.
  destruct ((65 <=? c) && (c <=? 90)) eqn:E; auto.
  apply andb_true_iff in E as [_ E]. apply N.leb_le in E. lia.
Qed.

Lemma alnum_all_ascii (P : bool) (t : jsstring) :
  ascii t ->
  Forall (fun x => @alnum BasicLatin.tables x = P) t ->
  Forall (fun x => @alnum U x = P) t.
Proof.
  intros Ha H. induction H as [|x t Hx H IH]; constructor.
  - inversion Ha; subst. now rewrite alnum_ascii.
  - inversion Ha; subst. auto.
Qed.

Lemma not_alnum_head_ascii (rest : jsstring) :
  ascii rest ->
  @not_alnum_head BasicLatin.tables rest -> @not_alnum_head U rest.
Proof.
  destruct rest as [|c rest]; auto. intros Ha H. inversion Ha; subst.
  unfold not_alnum_head. now rewrite alnum_ascii.
Qed.

Definition ascii_words (segs : list segment) : Prop :=
  Forall (fun sg => match sg with Word w => ascii w | Gap _ => True end) segs.

Lemma words_in_ascii (s : jsstring) (segs : list segment) :
  @words_in BasicLatin.tables s segs ->
  ascii s ->
  @words_in U s segs /\ ascii_words segs.
Proof.
  induction 1 as [|c rest segs Hc H IH|c t rest segs Hc Ht Hr H IH]; intros Ha.
  - split; constructor.
  - inversion Ha as [|? ? A1 A2]; subst. destruct (IH A2) as [W F].
    split; constructor; auto. now rewrite isL_ascii.
  - inversion Ha as [|? ? A1 A2]; subst.
    apply Forall_app in A2 as [A2 A3]. destruct (IH A3) as [W F].
    split; constructor; auto.
    + now rewrite isL_ascii.
    + now apply alnum_all_ascii.
    + now apply not_alnum_head_ascii.
    + now constructor.
Qed.

Lemma rewrite_words_ascii (f g : jsstring -> jsstring) (segs : list segment) :
  (forall w, ascii w -> f w = g w) ->
  ascii_words segs ->
  rewrite_words f segs = rewrite_words g segs.
Proof.
  intros Hf H. unfold rewrite_words.
  induction H as [|sg segs Hsg H IH]; cbn [flat_map]; auto.
  rewrite IH. destruct sg as [c|w]; auto. now rewrite Hf.
Qed.

Lemma replaceWith_ascii (fn fn' : jsstring -> M jsstring)
  (f f' : jsstring -> jsstring) (s : jsstring) :
  (forall w, fn w = Normal (f w)) ->
  (forall w, fn' w = Normal (f' w)) ->
  (forall w, ascii w -> f w = f' w) ->
  ascii s ->
  replaceWith (@re_word U) fn s
  = replaceWith (@re_word BasicLatin.tables) fn' s.
Proof.
  intros Hf Hf' E Ha.
  destruct (@words_in_exists BasicLatin.tables s) as (segs & W').
  destruct (words_in_ascii s segs W' Ha) as [W F].
  rewrite (@replaceWith_words U fn f s segs Hf W).
  rewrite (@replaceWith_words BasicLatin.tables fn' f' s segs Hf' W').
  f_equal. now apply rewrite_words_ascii.
Qed.

Lemma tokens_ascii (s : jsstring) (ws : list jsstring) :
  @tokens_of BasicLatin.tables s ws ->
  ascii s ->
  @tokens_of U s ws /\ Forall ascii ws.
Proof.
  induction 1 as [g Hg|g c t rest ws Hg Hw Hr H IH]; intros Ha.
  - split; constructor. now apply alnum_all_ascii.
  - apply Forall_app in Ha as [A1 A2]. apply Forall_app in A2 as [A2 A3].
    destruct (IH A3) as [T F]. split.
    + constructor; auto.
      * now apply alnum_all_ascii.
      * now apply alnum_all_ascii.
      * now apply not_alnum_head_ascii.
    + now constructor.
Qed.

Lemma splitWords_ascii (text : jsstring) :
  ascii text ->
  @splitWords U text = @splitWords BasicLatin.tables text
  /\ Forall ascii (@splitWords BasicLatin.tables text).
Proof.
  intros Ha.
  destruct (tokens_ascii (trim text) _
              (@splitWords_tokens BasicLatin.tables text)
              (trim_part _ text Ha)) as [T F].
  split; auto.
  apply (@tokens_of_unique U (trim text)); auto. apply splitWords_tokens.
Qed.

Lemma capitalized_ascii (w : jsstring) :
  ascii w -> @capitalized U w = @capitalized BasicLatin.tables w.
Proof.
  intros Ha. unfold capitalized. rewrite (lower_ascii w Ha).
  assert (A : ascii (@toLocaleLowerCase BasicLatin.tables w))
    by now apply lower1_ascii.
  destruct (@toLocaleLowerCase BasicLatin.tables w) as [|c low]; auto.
  inversion A; subst. rewrite upper_ascii; auto. now constructor.
Qed.

Lemma map_ascii (f g : jsstring -> jsstring) (ws : list jsstring) :
  (forall w, ascii w -> f w = g w) ->
  Forall ascii ws -> map f ws = map g ws.
Proof.
  intros E H. induction H as [|w ws Hw H IH]; cbn [map]; auto.
  now rewrite E, IH.
Qed.

Lemma toggled_ascii (s : jsstring) :
  ascii s ->
  flat_map (@toggled U) s = flat_map (@toggled BasicLatin.tables) s.
Proof.
  induction 1 as [|c s Hc H IH]; cbn [flat_map]; auto.
  rewrite IH. f_equal. unfold toggled.
  assert (A : ascii [c]) by now constructor.
  now rewrite isL_ascii, (upper_ascii [c] A), (lower_ascii [c] A).
Qed.

Lemma alternate_ascii (s : jsstring) :
  ascii s ->
  forall flip, @alternate U flip s = @alternate BasicLatin.tables flip s.
Proof.
  induction 1 as [|c s Hc H IH]; intros flip; cbn [alternate]; auto.
  assert (A : ascii [c]) by now constructor.
  now rewrite isL_ascii, (upper_ascii [c] A), (lower_ascii [c] A), !IH.
Qed.

Lemma sentence_fold_ascii (s : jsstring) :
  ascii s ->
  forall st,
    fold_left
      (fun (st : jsstring * bool) (ch : jsstring) =>
         let (out, capNext) := st in
         if capNext && test (@re_letter U) ch then
           (out ++ @toLocaleUpperCase U ch, false)
         else
           (out ++ ch,
            if test re_stop ch || str_eqb ch [10] then true else capNext))
      (Array_from s) st
    = fold_left
        (fun (st : jsstring * bool) (ch : jsstring) =>
           let (out, capNext) := st in
           if capNext && test (@re_letter BasicLatin.tables) ch then
             (out ++ @toLocaleUpperCase BasicLatin.tables ch, false)
           else
             (out ++ ch,
              if test re_stop ch || str_eqb ch [10] then true else capNext))
        (Array_from s) st.
Proof.
  induction 1 as [|c s Hc H IH]; intros [out capNext];
    cbn [Array_from map fold_left]; auto.
  fold (Array_from s).
  assert (A : ascii [c]) by now constructor.
  now rewrite (@test_letter U), (@test_letter BasicLatin.tables),
    isL_ascii, (upper_ascii [c] A), IH.
Qed.

Lemma toSentenceCase_ascii (s : jsstring) :
  ascii s -> @toSentenceCase U s = @toSentenceCase BasicLatin.tables s.
Proof.
  intros Ha. unfold toSentenceCase. rewrite (lower_ascii s Ha).
  now rewrite sentence_fold_ascii by now apply lower1_ascii.
Qed.

Lemma computeOutput_ascii (text : jsstring) (preserve : bool) (active : jsstring) :
  ascii text ->
  @computeOutput U text preserve active
  = @computeOutput BasicLatin.tables text preserve active.
Proof.
  intros Ha.
  assert (Ht : ascii (trim text)) by now apply trim_part.
  destruct (splitWords_ascii text Ha) as [Es Fs].
  unfold computeOutput.
  destruct (str_eqb active (lit "upper")).
  { destruct preserve.
    - apply (replaceWith_ascii _ _ (@toLocaleUpperCase U)
               (@toLocaleUpperCase BasicLatin.tables)); auto using upper_ascii.
    - now rewrite upper_ascii. }
  destruct (str_eqb active (lit "lower")).
  { destruct preserve.
    - apply (replaceWith_ascii _ _ (@toLocaleLowerCase U)
               (@toLocaleLowerCase BasicLatin.tables)); auto using lower_ascii.
    - now rewrite lower_ascii. }
  destruct (str_eqb active (lit "title")).
  { destruct preserve;
      apply (replaceWith_ascii _ _ (@capitalized U)
               (@capitalized BasicLatin.tables));
      auto using capitalized_ascii; intros w; apply capitalize_capitalized. }
  destruct (str_eqb active (lit "sentence")).
  { destruct preserve; now rewrite toSentenceCase_ascii. }
  destruct (str_eqb active (lit "toggle")).
  { destruct preserve; now rewrite !toggleCase_toggled, toggled_ascii. }
  destruct (str_eqb active (lit "alternating")).
  { destruct preserve; now rewrite !alternatingCase_alternate, alternate_ascii. }
  destruct (str_eqb active (lit "camel")).
  { unfold toCamelCase. rewrite Es.
    destruct (@splitWords BasicLatin.tables text) as [|w0 ws]; auto.
    inversion Fs; subst. cbn [length Nat.eqb skipn].
    rewrite !mapM_capitalize. unfold element. cbn [nth_error bind ret].
    rewrite (lower_ascii w0) by assumption.
    now rewrite (map_ascii _ _ ws capitalized_ascii). }
  destruct (str_eqb active (lit "pascal")).
  { unfold toPascalCase. rewrite Es, !mapM_capitalize. cbn [bind ret].
    now rewrite (map_ascii _ _ _ capitalized_ascii Fs). }
  destruct (str_eqb active (lit "snake")).
  { unfold toDelimited. rewrite Es. do 2 f_equal.
    exact (map_ascii _ _ _ lower_ascii Fs). }
  destruct (str_eqb active (lit "kebab")).
  { unfold toDelimited. rewrite Es. do 2 f_equal.
    exact (map_ascii _ _ _ lower_ascii Fs). }
  destruct (str_eqb active (lit "dot")).
  { unfold toDelimited. rewrite Es. do 2 f_equal.
    exact (map_ascii _ _ _ lower_ascii Fs). }
  destruct (str_eqb active (lit "space")).
  { unfold toSpaceCase. now rewrite Es. }
  reflexivity.
Qed.

End Agreement.

(** X20.  On a text of Basic Latin the converter consults the tables of
    the host on Basic Latin only: in every host whose tables agree with
    the Basic Latin ones there, it gives what it gives with the Basic
    Latin tables, for every key and either value of the flag. *)
Theorem basic_latin_texts (U : Unicode) (text : jsstring) :
  basic_latin_host U ->
  ascii text ->
  forall preserve active,
    @computeOutput U text preserve active
    = @computeOutput BasicLatin.tables text preserve active.
Proof. intros host Ha preserve active. now apply computeOutput_ascii. Qed.

Lemma latin1_ascii (c : N) : c < 128 -> Latin1.accented c = false.
Proof.
  intros H. unfold Latin1.accented.
  destruct (N.leb_spec 192 c); [lia|reflexivity].
Qed.

Lemma latin1_host : basic_latin_host Latin1.tables.
Proof.
  repeat split.
  - intros c H. cbn [isL Latin1.tables].
    now rewrite (latin1_ascii c H), orb_false_r.
  - intros w H. cbn [toLocaleUpperCase Latin1.tables].
    induction H as [|c w Hc H IH]; cbn [map]; auto.
    rewrite IH. f_equal. unfold Latin1.upper1.
    now rewrite (latin1_ascii c Hc), andb_false_r.
  - intros w H. cbn [toLocaleLowerCase Latin1.tables].
    induction H as [|c w Hc H IH]; cbn [map]; auto.
    rewrite IH. f_equal. unfold Latin1.lower1.
    now rewrite (latin1_ascii c Hc), andb_false_r.
Qed.

Lemma basic_latin_texts_witness :
  basic_latin_host Latin1.tables
  /\ ascii (lit "Hello, world!")
  /\ forall preserve active,
       @computeOutput Latin1.tables (lit "Hello, world!") preserve active
       = @computeOutput BasicLatin.tables (lit "Hello, world!") preserve active.
Proof.
  assert (A : ascii (lit "Hello, world!")) by (vm_compute; repeat constructor).
  split; [exact latin1_host|]. split; [exact A|].
  exact (basic_latin_texts Latin1.tables (lit "Hello, world!") latin1_host A).
Defined.

(** X21.  In a host whose tables agree with the Basic Latin ones on Basic
    Latin, [runSelfTests] completes and none of its twelve assertions
    writes to the console. *)
Theorem runSelfTests_silent (U : Unicode) :
  basic_latin_host U -> @runSelfTests U = Normal [].
Proof.
  intros host. unfold runSelfTests.
  rewrite !(computeOutput_ascii host) by (vm_compute; repeat constructor).
  reflexivity.
Qed.

Lemma runSelfTests_silent_witness :
  basic_latin_host Latin1.tables /\ @runSelfTests Latin1.tables = Normal [].
Proof.
  split; [exact latin1_host|].
  exact (runSelfTests_silent Latin1.tables latin1_host).
Defined.
